(** * Lumina-Sheets: tools/verify_page_descriptions.py

    A shallow embedding of the page-description checker and the proofs of
    its specification.  Python strings are sequences of Unicode code
    points; the regular expressions of the source are kept as syntax and
    run by a backtracking matcher with the priorities of Python's [re]
    module (leftmost match, greedy and lazy repetition, ordered
    alternation). *)

From Stdlib Require Import String Ascii.
From Stdlib Require Import List NArith ZArith Bool Arith Lia Permutation.
Import ListNotations.

Set Implicit Arguments.

(** ** Characters and strings *)

(** A character is a Unicode code point. *)
Definition char := N.
Bind Scope N_scope with char.

(** A Python [str]. *)
Definition str := list char.

(** A Python string literal, as the list of its code points. *)
Definition pystr (s : string) : str :=
  map N_of_ascii (list_ascii_of_string s).
Arguments pystr s%_string_scope.

(** A character literal: the first code point of the literal. *)
Definition chr (s : string) : char :=
  match pystr s with c :: _ => c | [] => 0%N end.
Arguments chr s%_string_scope.

(** [a == b], on characters and on strings. *)
Definition char_eqb (a b : char) : bool := N.eqb a b.

Fixpoint str_eqb (a b : str) : bool :=
  match a, b with
  | [], [] => true
  | x :: a', y :: b' => char_eqb x y && str_eqb a' b'
  | _, _ => false
  end.

(** The truth value of a Python sequence: an empty one is false. *)
Definition is_empty {A : Type} (s : list A) : bool :=
  match s with [] => true | _ :: _ => false end.

(** [lo <= c <= hi] *)
Definition in_range (lo hi c : char) : bool :=
  (N.leb lo c && N.leb c hi)%bool.

(** The ASCII classes [[A-Z]], [[a-z]] and [[0-9]]. *)
Definition is_ascii (c : char) : bool := N.ltb c 128.
Definition is_ascii_upper (c : char) : bool := in_range 65 90 c.
Definition is_ascii_lower (c : char) : bool := in_range 97 122 c.
Definition is_ascii_digit (c : char) : bool := in_range 48 57 c.

(** The class [[A-Za-z0-9]] of the source's patterns. *)
Definition is_alnum_ascii (c : char) : bool :=
  is_ascii_upper c || is_ascii_lower c || is_ascii_digit c.

(** [str.lower()] on an ASCII character. *)
Definition ascii_lower (c : char) : char :=
  if is_ascii_upper c then (c + 32)%N else c.

(** White space below 128, as CPython's [_Py_ascii_whitespace]: tab, line
    feed, vertical tab, form feed, carriage return, the separators
    0x1c-0x1f and the space. *)
Definition ascii_isspace (c : char) : bool :=
  in_range 9 13 c || in_range 28 31 c || N.eqb c 32.

(** ** String methods *)

Fixpoint drop_while (p : char -> bool) (s : str) : str :=
  match s with
  | [] => []
  | c :: t => if p c then drop_while p t else s
  end.

(** [s.strip(chars)], for the set of characters [p]. *)
Definition strip_by (p : char -> bool) (s : str) : str :=
  rev (drop_while p (rev (drop_while p s))).

(** [s.strip("-")] *)
Definition py_strip_chars (chars : str) (s : str) : str :=
  strip_by (fun c => existsb (char_eqb c) chars) s.

(** [s.startswith(p)], returning what follows the prefix. *)
Fixpoint strip_prefix (p s : str) : option str :=
  match p, s with
  | [], _ => Some s
  | _ :: _, [] => None
  | x :: p', y :: s' => if char_eqb x y then strip_prefix p' s' else None
  end.

Definition starts_with (p s : str) : bool :=
  match strip_prefix p s with Some _ => true | None => false end.

(** [s.endswith(p)] *)
Definition ends_with (p s : str) : bool := starts_with (rev p) (rev s).

(** The first occurrence of [pat] in [s]: the text before it and the text
    after it ([s.partition(pat)] without the separator). *)
Fixpoint find_sub (pat s : str) : option (str * str) :=
  match strip_prefix pat s with
  | Some rest => Some ([], rest)
  | None =>
      match s with
      | [] => None
      | c :: t =>
          match find_sub pat t with
          | Some (before, after) => Some (c :: before, after)
          | None => None
          end
      end
  end.

(** [pat in s] *)
Definition str_contains (pat s : str) : bool :=
  match find_sub pat s with Some _ => true | None => false end.

(** [s.split(sep)] for a separator that is not empty: the pieces between
    the occurrences of [sep], found from the left without overlap. *)
Fixpoint split_fuel (fuel : nat) (sep s : str) : list str :=
  match fuel with
  | O => [s]
  | S fuel' =>
      match find_sub sep s with
      | Some (before, after) => before :: split_fuel fuel' sep after
      | None => [s]
      end
  end.

Definition py_split (sep s : str) : list str :=
  split_fuel (length s) sep s.

(** [s.replace(old, new)] for [old] not empty. *)
Fixpoint replace_fuel (fuel : nat) (old new s : str) : str :=
  match fuel with
  | O => s
  | S fuel' =>
      match find_sub old s with
      | Some (before, after) => before ++ new ++ replace_fuel fuel' old new after
      | None => s
      end
  end.

Definition py_replace (old new s : str) : str :=
  replace_fuel (length s) old new s.

(** ** Regular expressions

    The patterns of the source, as syntax.  [Class p] is a character class
    (a literal character, a set, a negated set, [\s], [\w]); [Star g r] is
    [r*] when [g] is true and the lazy [r*?] otherwise; [Group n r] is the
    n-th capturing group; a group [(?:...)] that does not capture is its
    body. *)
Inductive regex : Type :=
| Eps
| Class (p : char -> bool)
| Seq (a b : regex)
| Alt (a b : regex)
| Star (greedy : bool) (a : regex)
| Group (n : nat) (a : regex).

(** [r+] and [r+?] *)
Definition Plus (greedy : bool) (r : regex) : regex := Seq r (Star greedy r).

(** A literal character. *)
Definition Chr (c : char) : regex := Class (char_eqb c).

(** A run of literal characters. *)
Fixpoint Lit (w : str) : regex :=
  match w with
  | [] => Eps
  | c :: w' => Seq (Chr c) (Lit w')
  end.

(** The groups captured so far, the latest first. *)
Definition captures := list (nat * str).

Fixpoint group (caps : captures) (n : nat) : str :=
  match caps with
  | [] => []
  | (i, g) :: caps' => if Nat.eqb i n then g else group caps' n
  end.

(** The loop of a repetition, over a matcher [body] for what is repeated:
    with [greedy] one more repetition is tried before the continuation
    [k], without it [k] is tried first.  A repetition that consumes
    nothing is not repeated, so at most one turn per character left is
    needed, and [fuel] is the length of the text at the start. *)
Fixpoint star_loop {A : Type} (greedy : bool)
    (body : str -> captures -> (str -> captures -> option A) -> option A)
    (k : str -> captures -> option A)
    (fuel : nat) (s : str) (caps : captures) {struct fuel} : option A :=
  match fuel with
  | O => k s caps
  | S fuel' =>
      let again :=
        body s caps
          (fun s' caps' =>
             if length s' <? length s
             then star_loop greedy body k fuel' s' caps'
             else None) in
      if greedy then
        match again with Some x => Some x | None => k s caps end
      else
        match k s caps with Some x => Some x | None => again end
  end.

(** The backtracking matcher, in continuation-passing style: [rmatch r s
    caps k] matches [r] at the head of [s] and hands what is left of [s]
    and the groups to [k]; when [k] fails, the next way of matching [r] is
    tried, in the order of Python's [re]: the first alternative before
    the second, the longest repetition first for [*], the shortest first
    for [*?]. *)
Fixpoint rmatch {A : Type} (r : regex) (s : str) (caps : captures)
    (k : str -> captures -> option A) {struct r} : option A :=
  match r with
  | Eps => k s caps
  | Class p =>
      match s with
      | c :: t => if p c then k t caps else None
      | [] => None
      end
  | Seq a b => rmatch a s caps (fun s' caps' => rmatch b s' caps' k)
  | Alt a b =>
      match rmatch a s caps k with
      | Some x => Some x
      | None => rmatch b s caps k
      end
  | Star greedy a =>
      star_loop greedy (fun s' caps' k' => rmatch a s' caps' k') k
        (length s) s caps
  | Group n a =>
      rmatch a s caps
        (fun s' caps' =>
           k s' ((n, firstn (length s - length s') s) :: caps'))
  end.

(** [pattern.match(s)]: the rest of [s] after the match, and its groups. *)
Definition match_at (r : regex) (s : str) : option (str * captures) :=
  rmatch r s [] (fun rest caps => Some (rest, caps)).

(** A match object: where the match starts and ends in the text searched,
    and its groups. *)
Record match_obj : Type := {
  m_start : nat;
  m_end : nat;
  m_groups : captures
}.

(** [re.search(r, s)]: the match at the leftmost position that has one. *)
Fixpoint search_from (r : regex) (pos : nat) (s : str) : option match_obj :=
  match match_at r s with
  | Some (rest, caps) =>
      Some {| m_start := pos;
              m_end := pos + (length s - length rest);
              m_groups := caps |}
  | None =>
      match s with
      | [] => None
      | _ :: t => search_from r (S pos) t
      end
  end.

Definition re_search (r : regex) (s : str) : option match_obj :=
  search_from r 0 s.

(** [match.group(n)] *)
Definition m_group (m : match_obj) (n : nat) : str := group (m_groups m) n.

(** [re.sub(r, repl, s)] for a replacement without back-references: the
    matches of [r] are found from the left without overlap; after a match
    the scan goes on where the match ended, and where there is none the
    character is kept and the scan moves one character on.  (None of the
    source's patterns matches the empty string.) *)
Fixpoint sub_fuel (r : regex) (repl : str) (fuel : nat) (s : str) : str :=
  match fuel with
  | O => s
  | S fuel' =>
      match s with
      | [] => []
      | c :: t =>
          match match_at r s with
          | Some (rest, _) =>
              if length rest <? length s
              then repl ++ sub_fuel r repl fuel' rest
              else repl ++ c :: sub_fuel r repl fuel' t
          | None => c :: sub_fuel r repl fuel' t
          end
      end
  end.

Definition re_sub (r : regex) (repl s : str) : str :=
  sub_fuel r repl (length s) s.

(** The groups of the successive matches of [r] in [s]. *)
Fixpoint finditer_fuel (r : regex) (fuel : nat) (s : str) : list captures :=
  match fuel with
  | O => []
  | S fuel' =>
      match s with
      | [] => []
      | _ :: t =>
          match match_at r s with
          | Some (rest, caps) =>
              caps :: finditer_fuel r fuel'
                        (if length rest <? length s then rest else t)
          | None => finditer_fuel r fuel' t
          end
      end
  end.

(** [re.findall(r, s)] for a pattern with two groups: the list of the
    pairs (group 1, group 2) of the matches. *)
Definition re_findall2 (r : regex) (s : str) : list (str * str) :=
  map (fun caps => (group caps 1, group caps 2))
      (finditer_fuel r (length s) s).

(** ** Dictionaries

    A Python [dict] keeps its keys in the order of their first insertion
    and is iterated in that order; assigning to a key that is present
    replaces its value in place. *)
Definition dict (V : Type) : Type := list (str * V).

Fixpoint dict_get {V : Type} (d : dict V) (k : str) : option V :=
  match d with
  | [] => None
  | (k', v) :: d' => if str_eqb k' k then Some v else dict_get d' k
  end.

(** [k in d] *)
Definition dict_mem {V : Type} (k : str) (d : dict V) : bool :=
  match dict_get d k with Some _ => true | None => false end.

(** [d[k] = v] *)
Fixpoint dict_set {V : Type} (d : dict V) (k : str) (v : V) : dict V :=
  match d with
  | [] => [(k, v)]
  | (k', v') :: d' =>
      if str_eqb k' k then (k', v) :: d' else (k', v') :: dict_set d' k v
  end.

(** [dict(pairs)]: the pairs are inserted from the left, so that the last
    value of a repeated key stays. *)
Definition dict_of_pairs {V : Type} (pairs : list (str * V)) : dict V :=
  fold_left (fun d kv => dict_set d (fst kv) (snd kv)) pairs [].

(** [d.items()] *)
Definition dict_items {V : Type} (d : dict V) : list (str * V) := d.

(** ** Paths *)

(** [os.path.join(a, b)] on POSIX. *)
Definition os_path_join (a b : str) : str :=
  if starts_with (pystr "/") b then b
  else if is_empty a || ends_with (pystr "/") a then a ++ b
  else a ++ pystr "/" ++ b.

(** The index of the last occurrence of [c] in [s] ([s.rfind(c)]), if
    there is one. *)
Fixpoint rfind_char (c : char) (s : str) : option nat :=
  match s with
  | [] => None
  | x :: t =>
      match rfind_char c t with
      | Some i => Some (S i)
      | None => if char_eqb x c then Some 0%nat else None
      end
  end.

(** [os.path.splitext(p)] on POSIX ([genericpath._splitext]): the
    extension starts at the last dot that comes after the last slash and
    after a character of the base name that is not a dot. *)
Definition os_path_splitext (p : str) : str * str :=
  match rfind_char (chr ".") p with
  | None => (p, [])
  | Some dot =>
      let name_start :=
        match rfind_char (chr "/") p with
        | Some sep => S sep
        | None => 0%nat
        end in
      if (name_start <=? dot)%nat
         && negb (forallb (char_eqb (chr "."))
                    (firstn (dot - name_start) (skipn name_start p)))
      then (firstn dot p, skipn dot p)
      else (p, [])
  end.

(** ** The Unicode database

    What [str.strip], [str.lower], [\s] and [\w] do on text outside ASCII
    comes from CPython's Unicode tables, which are no part of the
    repository.  They are taken as a parameter: the classification of the
    code points from 128 on, and [str.lower] on the strings that hold such
    a code point.  Lowering never yields an ASCII capital (no lowercase
    mapping of Unicode has one in its image). *)
Class UnicodeData := {
  uni_isspace : char -> bool;
  uni_isalnum : char -> bool;
  uni_lower : str -> str;
  uni_lower_no_upper :
    forall s c, In c (uni_lower s) -> is_ascii_upper c = false
}.

(** The tables of a build that knows ASCII only: nothing beyond 127 is
    white space or alphanumeric, and lowering such text only lowers its
    ASCII capitals. *)
Definition ascii_only : UnicodeData.
Proof.
  refine {| uni_isspace := fun _ => false;
            uni_isalnum := fun _ => false;
            uni_lower := map ascii_lower;
            uni_lower_no_upper := _ |}.
  intros s c H. apply in_map_iff in H as [x [<- _]].
  unfold ascii_lower. destruct (is_ascii_upper x) eqn:E; [|exact E].
  unfold is_ascii_upper, in_range in *.
  apply andb_true_iff in E as [E1 E2].
  apply N.leb_le in E1. apply N.leb_le in E2.
  apply andb_false_iff. right. apply N.leb_gt. lia.
Defined.

Section Checker.

Context {U : UnicodeData}.

(** [Py_UNICODE_ISSPACE]: the white space of [str.strip()] and of [\s]. *)
Definition is_space (c : char) : bool :=
  if is_ascii c then ascii_isspace c else uni_isspace c.

(** The class [\w] of a str pattern: alphanumeric or the underscore. *)
Definition is_word (c : char) : bool :=
  if is_ascii c then is_alnum_ascii c || N.eqb c 95 else uni_isalnum c.

(** [str.lower()]. *)
Definition py_lower (s : str) : str :=
  if forallb is_ascii s then map ascii_lower s else uni_lower s.

(** [s.strip()] *)
Definition py_strip (s : str) : str := strip_by is_space s.

(** ** The patterns of the source *)

Definition squote : char := 39.
Definition dquote : char := 34.

(** A sequence of patterns. *)
Definition Cat (l : list regex) : regex := fold_right Seq Eps l.

(** [[\s\S]]: any character. *)
Definition space_or_not : regex :=
  Class (fun c => is_space c || negb (is_space c)).

(** [[^A-Za-z0-9]+] *)
Definition non_alnum_run : regex :=
  Plus true (Class (fun c => negb (is_alnum_ascii c))).

(** [-+] *)
Definition hyphen_run : regex := Plus true (Chr (chr "-")).

(** [var __layoutPageDescriptionEntries = \{([\s\S]*?)\};] *)
Definition entries_marker : str :=
  pystr "var __layoutPageDescriptionEntries = {".

Definition entries_pattern : regex :=
  Cat [Lit entries_marker;
       Group 1 (Star false space_or_not);
       Lit (pystr "};")].

(** ['([^']+)':\s*'([^']+)'] *)
Definition not_squote : regex := Class (fun c => negb (char_eqb c squote)).

Definition entry_pattern : regex :=
  Cat [Chr squote;
       Group 1 (Plus true not_squote);
       Chr squote; Chr (chr ":");
       Star true (Class is_space);
       Chr squote;
       Group 2 (Plus true not_squote);
       Chr squote].

(** [include\((?:'|\Q)layout(?:'|\Q)\s*,\s*\{([\s\S]*?)\}\)], with [\Q]
    for the escaped double quote of the source. *)
Definition include_pattern : regex :=
  Cat [Lit (pystr "include(");
       Alt (Chr squote) (Chr dquote);
       Lit (pystr "layout");
       Alt (Chr squote) (Chr dquote);
       Star true (Class is_space);
       Chr (chr ",");
       Star true (Class is_space);
       Chr (chr "{");
       Group 1 (Star false space_or_not);
       Lit (pystr "})")].

(** [(\w+)\s*:\s*([^,\n]+)] *)
Definition prop_pattern : regex :=
  Cat [Group 1 (Plus true (Class is_word));
       Star true (Class is_space);
       Chr (chr ":");
       Star true (Class is_space);
       Group 2 (Plus true
                  (Class (fun c => negb (char_eqb c (chr ",")
                                         || char_eqb c 10))))].

(** [['\Q()]], with [\Q] for the escaped double quote of the source. *)
Definition is_quote_or_paren (c : char) : bool :=
  char_eqb c squote || char_eqb c dquote
  || char_eqb c (chr "(") || char_eqb c (chr ")").

Definition quote_or_paren : regex := Class is_quote_or_paren.

(** ** slugify *)

Definition slugify (value : str) : str :=
  let value := re_sub non_alnum_run (pystr "-") (py_lower (py_strip value)) in
  let value := py_strip_chars (pystr "-") (re_sub hyphen_run (pystr "-") value) in
  value.

(** ** read_layout_lookup *)

Inductive exn : Type :=
| RuntimeError (msg : str).

(** The dictionary [entries] that the loader reads out of the layout text,
    when the declaration is found. *)
Definition layout_entries (layout_text : str) : option (dict str) :=
  match re_search entries_pattern layout_text with
  | None => None
  | Some entries_match =>
      Some (dict_of_pairs (re_findall2 entry_pattern (m_group entries_match 1)))
  end.

(** One turn of the loop [for key, description in entries.items()]. *)
Definition lookup_step (entries : dict str) (lookup : dict str)
    (item : str * str) : dict str :=
  let (key, description) := item in
  if is_empty description then lookup
  else
    let lookup := dict_set lookup key description in
    let collapsed := py_replace (pystr "-") [] key in
    if negb (is_empty collapsed)
       && negb (str_eqb collapsed key)
       && negb (dict_mem collapsed entries)
       && negb (dict_mem collapsed lookup)
    then dict_set lookup collapsed description
    else lookup.

Definition build_lookup (entries : dict str) : dict str :=
  fold_left (lookup_step entries) (dict_items entries) [].

Definition read_layout_lookup (layout_text : str) : exn + dict str :=
  match layout_entries layout_text with
  | None =>
      inl (RuntimeError
             (pystr "Could not locate __layoutPageDescriptionEntries in layout.html"))
  | Some entries => inr (build_lookup entries)
  end.

(** ** iter_layout_pages *)

(** A page record: path, slug, has_inline_description. *)
Definition page : Type := (str * str * bool)%type.

(** What the loop [for key in ("pageSlug", "currentPage")] leaves in
    [slug_candidate]: the cleaned value of the first of the keys that is a
    property and whose cleaned value is not empty, and the empty string
    when there is none. *)
Definition clean_value (value : str) : str :=
  let value :=
    if str_contains (pystr "||") value
    then nth 1 (py_split (pystr "||") value) []
    else value in
  py_strip (re_sub quote_or_paren [] value).

Fixpoint slug_from_props (props : dict str) (keys : list str) : str :=
  match keys with
  | [] => []
  | key :: keys' =>
      match dict_get props key with
      | Some value =>
          let value := clean_value value in
          if is_empty value then slug_from_props props keys' else value
      | None => slug_from_props props keys'
      end
  end.

Definition slug_keys : list str := [pystr "pageSlug"; pystr "currentPage"].

(** The properties read out of a block. *)
Definition block_props (block : str) : dict str :=
  dict_of_pairs (re_findall2 prop_pattern block).

(** The slug candidate of a page, before it goes through [slugify]. *)
Definition slug_candidate (block filename : str) : str :=
  let slug_candidate := slug_from_props (block_props block) slug_keys in
  if is_empty slug_candidate then fst (os_path_splitext filename)
  else slug_candidate.

(** The body of the inner loop, for a file that ends in [.html]: what the
    generator yields for it. *)
Definition scan_file (path filename text : str) : list page :=
  match re_search include_pattern text with
  | None => []
  | Some m =>
      let block := m_group m 1 in
      let has_inline_description := str_contains (pystr "pageDescription") block in
      [(path, slugify (slug_candidate block filename), has_inline_description)]
  end.

(** What [os.walk(root)] yields, with the text of every file: for each
    directory its path and its files. *)
Definition walk : Type := list (str * list (str * str)).

(** The HTML files in the order of the walk: path, name and text. *)
Definition html_files (w : walk) : list (str * str * str) :=
  flat_map
    (fun entry : str * list (str * str) =>
       let (current_root, files) := entry in
       flat_map
         (fun file : str * str =>
            let (filename, text) := file in
            if ends_with (pystr ".html") filename
            then [(os_path_join current_root filename, filename, text)]
            else [])
         files)
    w.

Definition iter_layout_pages (w : walk) : list page :=
  flat_map
    (fun f : str * str * str =>
       let '(path, filename, text) := f in scan_file path filename text)
    (html_files w).

(** ** main *)

(** The report that is printed: [json.dumps(report, indent=2,
    sort_keys=True)] is a function of these two values. *)
Record report : Type := {
  total_pages : Z;
  missing_descriptions : list (str * str)
}.

(** What a run does to the outside, in order. *)
Inductive event : Type :=
| EvOpen (path : str)
| EvStdout (r : report)
| EvStderr (line : str).

(** How a run ends: [raise SystemExit(code)], or an exception that nothing
    catches. *)
Inductive outcome : Type :=
| Exit (code : Z)
| Uncaught (e : exn).

(** The project: the root directory, the text of [layout.html] in it, and
    the walk of the root. *)
Record project : Type := {
  ROOT : str;
  layout_text : str;
  root_walk : walk
}.

Definition LAYOUT_PATH (p : project) : str :=
  os_path_join (ROOT p) (pystr "layout.html").

(** One turn of the loop of [main], on the lists [missing] and
    [coverage]. *)
Definition main_step (lookup : dict str)
    (state : list (str * str) * list (str * str)) (pg : page)
    : list (str * str) * list (str * str) :=
  let '(missing, coverage) := state in
  let '(path, slug, has_inline) := pg in
  if has_inline then (missing, coverage ++ [(path, slug)])
  else if negb (dict_mem slug lookup) then (missing ++ [(path, slug)], coverage)
  else (missing, coverage ++ [(path, slug)]).

Definition main_loop (lookup : dict str) (pages : list page)
    : list (str * str) * list (str * str) :=
  fold_left (main_step lookup) pages ([], []).

Definition missing_line (entry : str * str) : str :=
  let (path, slug) := entry in
  pystr "Missing description for slug '" ++ slug ++ pystr "' from " ++ path.

Definition main (p : project) : list event * outcome :=
  match read_layout_lookup (layout_text p) with
  | inl e => ([EvOpen (LAYOUT_PATH p)], Uncaught e)
  | inr lookup =>
      let pages := iter_layout_pages (root_walk p) in
      let '(missing, coverage) := main_loop lookup pages in
      let report := {| total_pages := Z.of_nat (length coverage);
                       missing_descriptions := missing |} in
      (EvOpen (LAYOUT_PATH p)
         :: map (fun f : str * str * str => EvOpen (fst (fst f)))
                (html_files (root_walk p))
         ++ EvStdout report
         :: (if is_empty missing then []
             else map (fun e => EvStderr (missing_line e)) missing),
       Exit (if is_empty missing then 0 else 1)%Z)
  end.

End Checker.

(** * Vocabulary of the statements and of the proofs *)

(** ** The classification of a page record *)

(** The parts of a page record. *)
Definition page_entry (pg : page) : str * str := fst pg.
Definition page_slug (pg : page) : str := snd (fst pg).
Definition page_inline (pg : page) : bool := snd pg.

(** The two outcomes of the classification, as tests on a record. *)
Definition is_covered (lookup : dict str) (pg : page) : bool :=
  page_inline pg || dict_mem (page_slug pg) lookup.

Definition is_missing (lookup : dict str) (pg : page) : bool :=
  negb (page_inline pg) && negb (dict_mem (page_slug pg) lookup).

(** ** The table and its aliases *)

(** The keys of a dictionary, in the order of [dict.keys()]. *)
Definition dict_keys {V : Type} (d : dict V) : list str := map fst d.

(** An alias of the table read so far: a key that no entry of the source
    has, with the description of the first retained entry whose key, its
    hyphens removed, is that key. *)
Definition alias_of (entries : dict str) (done : list (str * str))
    (alias description : str) : Prop :=
  dict_get entries alias = None
  /\ exists earlier key later,
      done = earlier ++ (key, description) :: later
      /\ description <> []
      /\ alias = filter (fun c => negb (char_eqb c (chr "-"))) key
      /\ alias <> key
      /\ alias <> []
      /\ forall key' description',
           In (key', description') earlier -> description' <> [] ->
           filter (fun c => negb (char_eqb c (chr "-"))) key' <> alias.

(** What holds of the table after the entries [done] have gone through
    the loop of the loader: the explicit keys have their description,
    every key has an origin, and the alias of every entry seen was
    considered. *)
Record lookup_inv (entries : dict str) (done : list (str * str))
    (lookup : dict str) : Prop := {
  inv_explicit :
    forall k d, In (k, d) done -> d <> [] -> dict_get lookup k = Some d;
  inv_origin :
    forall a d, dict_get lookup a = Some d ->
      (In (a, d) done /\ d <> []) \/ alias_of entries done a d;
  inv_seen :
    forall k d, In (k, d) done -> d <> [] ->
      let a := filter (fun c => negb (char_eqb c (chr "-"))) k in
      a = [] \/ a = k \/ dict_mem a entries = true
      \/ dict_mem a lookup = true
}.

(** ** The shape of a slug *)

(** [[a-z0-9]] *)
Definition is_slug_alnum (c : char) : bool :=
  is_ascii_lower c || is_ascii_digit c.

(** The hyphen, and the class that holds it alone. *)
Definition hyphen : char := chr "-".
Definition is_hyphen (c : char) : bool := char_eqb c hyphen.

(** [^[a-z0-9]+(-[a-z0-9]+)*$], as the specification writes the shape of a
    slug.  The anchors are rendered by matching the whole text. *)
Definition slug_regex : regex :=
  Seq (Plus true (Class is_slug_alnum))
      (Star true
         (Group 1 (Seq (Chr hyphen) (Plus true (Class is_slug_alnum))))).

(** The continuation that accepts at the end of the text only. *)
Definition at_end (rest : str) (caps : captures) : option unit :=
  if is_empty rest then Some tt else None.

(** [re.fullmatch(r, s) is not None] *)
Definition re_fullmatch (r : regex) (s : str) : bool :=
  match rmatch r s [] at_end with
  | Some _ => true
  | None => false
  end.

(** The automaton of the shape: [after_hyphen] tells that the character
    before was a hyphen, after which an alphanumeric must come. *)
Fixpoint slug_tail (after_hyphen : bool) (s : str) : bool :=
  match s with
  | [] => negb after_hyphen
  | c :: t =>
      if is_slug_alnum c then slug_tail false t
      else if is_hyphen c then negb after_hyphen && slug_tail true t
      else false
  end.

(** The shape itself: an alphanumeric, then the automaton. *)
Definition slug_ok (s : str) : bool :=
  match s with
  | c :: t => is_slug_alnum c && slug_tail false t
  | [] => false
  end.

(** The same, but for hyphens left at the two ends. *)
Fixpoint loose (after_hyphen : bool) (s : str) : bool :=
  match s with
  | [] => true
  | c :: t =>
      if is_slug_alnum c then loose false t
      else if is_hyphen c then negb after_hyphen && loose true t
      else false
  end.

(** ** Runs and ends of a text *)

(** [re.sub] with a pattern [[class]+] replaces each maximal run of the
    class; [in_run] tells that the character before was of the class. *)
Fixpoint sub_runs (p : char -> bool) (repl : str) (in_run : bool) (s : str)
    : str :=
  match s with
  | [] => []
  | c :: t =>
      if p c then
        if in_run then sub_runs p repl true t
        else repl ++ sub_runs p repl true t
      else c :: sub_runs p repl false t
  end.

(** The text without the characters of [p] at its end. *)
Fixpoint drop_end (p : char -> bool) (s : str) : str :=
  match s with
  | [] => []
  | c :: t =>
      match drop_end p t with
      | [] => if p c then [] else [c]
      | r => c :: r
      end
  end.

(** A value without its quote characters and parentheses. *)
Definition strip_quotes_parens (v : str) : str :=
  filter (fun c => negb (is_quote_or_paren c)) v.

(** ** Repetitions of a character class *)

(** The ways a repetition of a character class can stop, tried from the
    longest run to the shortest. *)
Fixpoint longest_first {A : Type} (p : char -> bool)
    (k : str -> captures -> option A) (caps : captures) (s : str)
    : option A :=
  match s with
  | c :: t =>
      if p c then
        match longest_first p k caps t with
        | Some x => Some x
        | None => k s caps
        end
      else k s caps
  | [] => k [] caps
  end.

(** The same ways, from the shortest run to the longest. *)
Fixpoint shortest_first {A : Type} (p : char -> bool)
    (k : str -> captures -> option A) (caps : captures) (s : str)
    : option A :=
  match k s caps with
  | Some x => Some x
  | None =>
      match s with
      | c :: t => if p c then shortest_first p k caps t else None
      | [] => None
      end
  end.

(** A run that ends where the class ends. *)
Definition stops (p : char -> bool) (s : str) : Prop :=
  match s with
  | [] => True
  | c :: _ => p c = false
  end.

(** ** Reading the include call *)

(** Reading one character of a class. *)
Definition expect (p : char -> bool) (s : str) : option str :=
  match s with
  | c :: t => if p c then Some t else None
  | [] => None
  end.

(** Skipping a run of [p], then reading one character of [q]. *)
Definition skip_then (p q : char -> bool) (s : str) : option str :=
  expect q (drop_while p s).

(** One reader after the other. *)
Definition and_then (f g : str -> option str) (s : str) : option str :=
  match f s with
  | Some rest => g rest
  | None => None
  end.

(** The two quote characters that may surround [layout]. *)
Definition is_quote (c : char) : bool :=
  char_eqb squote c || char_eqb dquote c.

(** The closing brace, which no head of a call holds. *)
Definition close_brace : char := chr "}".


Section IncludeReader.

Context {U : UnicodeData}.

(** The head of the call, up to its opening brace: what the pattern reads
    before the group. *)
Definition include_head : str -> option str :=
  and_then (strip_prefix (pystr "include("))
    (and_then (expect is_quote)
       (and_then (strip_prefix (pystr "layout"))
          (and_then (expect is_quote)
             (and_then (skip_then is_space (char_eqb (chr ",")))
                (skip_then is_space (char_eqb (chr "{"))))))).

(** The match of the pattern at the start of a text: the head, then the
    block up to the first [})]. *)
Definition include_at (s : str) : option (str * captures) :=
  match include_head s with
  | Some body =>
      match find_sub (pystr "})") body with
      | Some (block, rest) => Some (rest, [(1%nat, block)])
      | None => None
      end
  | None => None
  end.

End IncludeReader.

(** ** The table as it is written

    The text of a table in the format that the loader expects: each
    entry is ['key': 'description'], after a separator (a comma, white
    space, a line break, a comment); [tail] is what follows the last
    entry. *)
Fixpoint render_entries (items : list (str * (str * str))) (tail : str)
    : str :=
  match items with
  | [] => tail
  | (sep, (key, description)) :: items' =>
      sep ++ squote :: key ++ squote :: chr ":" :: chr " "
          :: squote :: description ++ squote :: render_entries items' tail
  end.

(** ** Sample projects *)

(** The pages of the scenarios of the specification: a page with an entry
    in the table, a page without one, and a page with an inline
    description. *)
Definition sample_layout : str :=
  pystr "<script>var __layoutPageDescriptionEntries = { 'about-us': 'Learn about our team', 'case-study': 'A case study' };</script>".

(** The project of the scenarios; [notes.txt] is no HTML file. *)
Definition sample_project : project := {|
  ROOT := pystr "/site";
  layout_text := sample_layout;
  root_walk :=
    [(pystr "/site",
      [(pystr "layout.html", sample_layout);
       (pystr "about-us.html",
        pystr "<?!= include('layout', { pageSlug: 'about-us' }) ?>");
       (pystr "contact.html",
        pystr "<?!= include('layout', { currentPage: 'contact' }) ?>");
       (pystr "team.html",
        pystr "<?!= include('layout', { pageDescription: 'Our team', currentPage: 'team' }) ?>");
       (pystr "notes.txt", pystr "include('layout', { })")])]
|}.

(** The table that the loader reads out of the sample layout. *)
Definition sample_lookup : dict str :=
  Eval vm_compute in
    match read_layout_lookup (U := ascii_only) sample_layout with
    | inr lookup => lookup
    | inl _ => []
    end.

(** A project whose layout has lost the declaration. *)
Definition broken_project : project := {|
  ROOT := pystr "/site";
  layout_text := pystr "<script>var descriptions = { 'about-us': 'Learn about our team' };</script>";
  root_walk :=
    [(pystr "/site",
      [(pystr "about-us.html",
        pystr "<?!= include('layout', { pageSlug: 'about-us' }) ?>")])]
|}.


(** A page with two invocations of the layout. *)
Definition two_calls : str :=
  pystr "<?!= include('layout', { pageSlug: 'first' }) ?><?!= include('layout', { currentPage: 'second', pageDescription: 'Second page' }) ?>".


(** The sample project, its first two files met in the other order. *)
Definition sample_project_reordered : project := {|
  ROOT := pystr "/site";
  layout_text := sample_layout;
  root_walk :=
    [(pystr "/site",
      [(pystr "about-us.html",
        pystr "<?!= include('layout', { pageSlug: 'about-us' }) ?>");
       (pystr "layout.html", sample_layout);
       (pystr "contact.html",
        pystr "<?!= include('layout', { currentPage: 'contact' }) ?>");
       (pystr "team.html",
        pystr "<?!= include('layout', { pageDescription: 'Our team', currentPage: 'team' }) ?>");
       (pystr "notes.txt", pystr "include('layout', { })")])]
|}.

(** Two entries of a table, each after its separator. *)
Definition sample_items : list (str * (str * str)) :=
  [(pystr " ", (pystr "about-us", pystr "Learn about our team"));
   (pystr ", ", (pystr "case-study", pystr "A case study"))].

(** * Properties *)

(** ** Strings and dictionaries *)

Lemma ascii_lower_not_upper (c : char) : is_ascii_upper (ascii_lower c) = false.
Proof.
  unfold ascii_lower.
  destruct (is_ascii_upper c) eqn:E; [|exact E].
  unfold is_ascii_upper, in_range in *.
  apply andb_true_iff in E as [E1 E2].
  apply N.leb_le in E1. apply N.leb_le in E2.
  apply andb_false_iff. right. apply N.leb_gt. lia.
Qed.

Lemma map_ascii_lower_no_upper (s : str) (c : char) :
  In c (map ascii_lower s) -> is_ascii_upper c = false.
Proof.
  intros H. apply in_map_iff in H as [x [<- _]]. apply ascii_lower_not_upper.
Qed.

Lemma str_eqb_eq (a b : str) : str_eqb a b = true <-> a = b.
Proof.
  revert b; induction a as [|x a IH]; intros [|y b]; simpl;
    try (split; [discriminate | discriminate]); [tauto|].
  unfold char_eqb. rewrite andb_true_iff, N.eqb_eq, IH.
  split; [intros [-> ->]; reflexivity | intros E; inversion E; auto].
Qed.

Lemma str_eqb_refl (a : str) : str_eqb a a = true.
Proof. apply str_eqb_eq; reflexivity. Qed.

Lemma str_eqb_neq (a b : str) : str_eqb a b = false <-> a <> b.
Proof.
  rewrite <- str_eqb_eq. destruct (str_eqb a b); split; congruence.
Qed.

Lemma str_eqb_sym (a b : str) : str_eqb a b = str_eqb b a.
Proof.
  destruct (str_eqb a b) eqn:E; symmetry.
  - apply str_eqb_eq. apply str_eqb_eq in E. auto.
  - apply str_eqb_neq. apply str_eqb_neq in E. auto.
Qed.

Lemma strip_prefix_app (p s rest : str) :
  strip_prefix p s = Some rest -> s = p ++ rest.
Proof.
  revert s; induction p as [|x p IH]; intros s; simpl.
  - now intros [= ->].
  - destruct s as [|y s]; [discriminate|].
    destruct (char_eqb x y) eqn:E; [|discriminate].
    unfold char_eqb in E. apply N.eqb_eq in E. subst y.
    intros H. now rewrite (IH _ H).
Qed.

Lemma strip_prefix_same (p rest : str) : strip_prefix p (p ++ rest) = Some rest.
Proof.
  induction p as [|x p IH]; [reflexivity|].
  simpl. unfold char_eqb. now rewrite N.eqb_refl.
Qed.

Lemma find_sub_app (pat s before after : str) :
  find_sub pat s = Some (before, after) -> s = before ++ pat ++ after.
Proof.
  revert before; induction s as [|c t IH]; intros before; simpl.
  - destruct (strip_prefix pat []) eqn:P; [|discriminate].
    intros [= <- <-]. now apply strip_prefix_app in P.
  - destruct (strip_prefix pat (c :: t)) eqn:P.
    + intros [= <- <-]. now apply strip_prefix_app in P.
    + destruct (find_sub pat t) as [[b a]|]; [|discriminate].
      intros [= <- <-]. now rewrite (IH b eq_refl).
Qed.

Lemma find_sub_here (pat s rest : str) :
  strip_prefix pat s = Some rest -> find_sub pat s = Some ([], rest).
Proof. intros H. destruct s; simpl in *; now rewrite H. Qed.

Lemma find_sub_some (pat u v : str) : find_sub pat (u ++ pat ++ v) <> None.
Proof.
  induction u as [|c u IH].
  - simpl app. now rewrite (find_sub_here _ _ (strip_prefix_same pat v)).
  - simpl app. cbn [find_sub].
    destruct (strip_prefix pat (c :: u ++ pat ++ v)); [discriminate|].
    destruct (find_sub pat (u ++ pat ++ v)) as [[? ?]|]; [discriminate|].
    contradiction.
Qed.

(** A text that holds [a ++ b ++ c] holds [b]. *)
Lemma str_contains_part (a b c s : str) :
  str_contains (a ++ b ++ c) s = true -> str_contains b s = true.
Proof.
  unfold str_contains.
  destruct (find_sub (a ++ b ++ c) s) as [[before after]|] eqn:F;
    [|discriminate].
  intros _. apply find_sub_app in F.
  destruct (find_sub b s) eqn:G; [reflexivity|]. exfalso.
  apply (@find_sub_some b (before ++ a) (c ++ after)).
  rewrite <- G. f_equal. rewrite F. now rewrite <- !app_assoc.
Qed.

Section DictFacts.

Variable V : Type.
Implicit Types (d : dict V) (k : str) (v : V).

Lemma dict_get_set_same d k v : dict_get (dict_set d k v) k = Some v.
Proof.
  induction d as [|[k' v'] d IH]; simpl.
  - now rewrite str_eqb_refl.
  - destruct (str_eqb k' k) eqn:E; simpl; rewrite E; auto.
Qed.

Lemma dict_get_set_other d k k' v :
  k <> k' -> dict_get (dict_set d k v) k' = dict_get d k'.
Proof.
  intros N. induction d as [|[k0 v0] d IH]; simpl.
  - apply str_eqb_neq in N. now rewrite N.
  - destruct (str_eqb k0 k) eqn:E; simpl.
    + apply str_eqb_eq in E. subst k0.
      apply str_eqb_neq in N. now rewrite N.
    + destruct (str_eqb k0 k'); auto.
Qed.

Lemma dict_mem_get k d : dict_mem k d = true <-> exists v, dict_get d k = Some v.
Proof.
  unfold dict_mem. destruct (dict_get d k).
  - split; eauto.
  - split; [discriminate | intros [? ?]; discriminate].
Qed.

Lemma dict_mem_false k d : dict_mem k d = false <-> dict_get d k = None.
Proof.
  unfold dict_mem. destruct (dict_get d k); split; congruence.
Qed.

End DictFacts.

(** ** The loop of main *)

Lemma main_loop_from (lookup : dict str) (pages : list page)
    (missing coverage : list (str * str)) :
  fold_left (main_step lookup) pages (missing, coverage) =
  (missing ++ map page_entry (filter (is_missing lookup) pages),
   coverage ++ map page_entry (filter (is_covered lookup) pages)).
Proof.
  revert missing coverage.
  induction pages as [|[[path slug] inl] pages IH]; intros missing coverage.
  - simpl. now rewrite !app_nil_r.
  - cbn [fold_left filter]. unfold main_step at 2.
    unfold is_missing, is_covered, page_inline, page_slug. cbn [fst snd].
    destruct inl; cbn [negb andb orb].
    + rewrite IH. cbn [map page_entry fst]. now rewrite <- app_assoc.
    + destruct (dict_mem slug lookup); cbn [negb]; rewrite IH;
        cbn [map page_entry fst]; now rewrite <- app_assoc.
Qed.

Lemma main_loop_filter (lookup : dict str) (pages : list page) :
  main_loop lookup pages =
  (map page_entry (filter (is_missing lookup) pages),
   map page_entry (filter (is_covered lookup) pages)).
Proof. unfold main_loop. now rewrite main_loop_from. Qed.

(** C1. Every scanned page record is classified as the claim says: with an
    inline description it is counted as covered, whatever the lookup
    holds; without one it is covered when its slug is a key of the lookup,
    and otherwise it is recorded as missing, as the pair (path, slug).
    The two lists hold nothing else, and keep the order of the scan. *)
Theorem main_classification (lookup : dict str) (pages : list page) :
  let (missing, coverage) := main_loop lookup pages in
  (forall path slug,
      In (path, slug, true) pages -> In (path, slug) coverage)
  /\ (forall path slug,
      In (path, slug, false) pages -> dict_mem slug lookup = true ->
      In (path, slug) coverage)
  /\ (forall path slug,
      In (path, slug, false) pages -> dict_mem slug lookup = false ->
      In (path, slug) missing)
  /\ missing =
     map page_entry
       (filter (fun pg => negb (page_inline pg)
                          && negb (dict_mem (page_slug pg) lookup)) pages)
  /\ coverage =
     map page_entry
       (filter (fun pg => page_inline pg || dict_mem (page_slug pg) lookup)
          pages).
Proof.
  rewrite main_loop_filter.
  repeat split.
  - intros path slug H.
    change (path, slug) with (page_entry (path, slug, true)).
    apply in_map, filter_In. split; [exact H|reflexivity].
  - intros path slug H M.
    change (path, slug) with (page_entry (path, slug, false)).
    apply in_map, filter_In. split; [exact H|].
    unfold is_covered, page_slug, page_inline; simpl. now rewrite M.
  - intros path slug H M.
    change (path, slug) with (page_entry (path, slug, false)).
    apply in_map, filter_In. split; [exact H|].
    unfold is_missing, page_slug, page_inline; simpl. now rewrite M.
Qed.

Lemma covered_or_missing (lookup : dict str) (pages : list page) :
  (length (filter (is_covered lookup) pages)
   + length (filter (is_missing lookup) pages) = length pages)%nat.
Proof.
  induction pages as [|pg pages IH]; [reflexivity|].
  simpl. unfold is_covered at 1, is_missing at 1.
  destruct (page_inline pg), (dict_mem (page_slug pg) lookup); simpl; lia.
Qed.

Section MainFacts.

Context {U : UnicodeData}.

(** C2. When the lookup has been loaded, the run prints the report to
    standard output, then writes one line [Missing description for slug
    '<slug>' from <path>] to the error stream for each missing page, and
    exits with status 0 exactly when no page is missing and with status 1
    exactly when one is. *)
Theorem main_exit_status (p : project) (lookup : dict str) :
  read_layout_lookup (layout_text p) = inr lookup ->
  let (missing, coverage) :=
    main_loop lookup (iter_layout_pages (root_walk p)) in
  exists (opened : list str) (r : report) (code : Z),
    main p =
      (map EvOpen opened
         ++ EvStdout r
         :: map (fun e : str * str =>
                   EvStderr (pystr "Missing description for slug '"
                               ++ snd e ++ pystr "' from " ++ fst e))
              missing,
       Exit code)
    /\ missing_descriptions r = missing
    /\ (code = 0%Z <-> missing = [])
    /\ (code = 1%Z <-> missing <> []).
Proof.
  intros L.
  destruct (main_loop lookup (iter_layout_pages (root_walk p)))
    as [missing coverage] eqn:E.
  exists (LAYOUT_PATH p
            :: map (fun f : str * str * str => fst (fst f))
                 (html_files (root_walk p))),
    {| total_pages := Z.of_nat (length coverage);
       missing_descriptions := missing |},
    (if is_empty missing then 0%Z else 1%Z).
  split; [|split; [reflexivity|]].
  - unfold main. rewrite L, E. cbn [map]. rewrite map_map.
    rewrite <- app_comm_cons. do 4 f_equal.
    destruct missing as [|e missing]; [reflexivity|].
    cbn [is_empty]. apply map_ext. intros [path slug]. reflexivity.
  - destruct missing; simpl; split; split; congruence.
Qed.

(** C3. The [total_pages] of the printed report counts the pages classified
    as covered, and those only: with the length of [missing_descriptions]
    it adds up to the number of page records that were scanned. *)
Theorem report_total_pages (p : project) (lookup : dict str) :
  read_layout_lookup (layout_text p) = inr lookup ->
  let pages := iter_layout_pages (root_walk p) in
  exists r : report,
    In (EvStdout r) (fst (main p))
    /\ (forall r', In (EvStdout r') (fst (main p)) -> r' = r)
    /\ total_pages r =
       Z.of_nat
         (length
            (filter (fun pg => page_inline pg
                               || dict_mem (page_slug pg) lookup) pages))
    /\ (total_pages r + Z.of_nat (length (missing_descriptions r))
        = Z.of_nat (length pages))%Z.
Proof.
  intros L pages.
  pose proof (main_loop_filter lookup pages) as E.
  pose proof (covered_or_missing lookup pages) as T.
  exists {| total_pages :=
              Z.of_nat (length (map page_entry
                                  (filter (is_covered lookup) pages)));
            missing_descriptions :=
              map page_entry (filter (is_missing lookup) pages) |}.
  unfold main. rewrite L. fold pages. rewrite E. cbn [fst].
  repeat split.
  - right. apply in_or_app. right. left. reflexivity.
  - intros r' [H|H]; [discriminate|].
    apply in_app_or in H as [H|[H|H]].
    + apply in_map_iff in H as [? [? _]]. discriminate.
    + now inversion H.
    + destruct (is_empty _); [destruct H|].
      apply in_map_iff in H as [? [? _]]. discriminate.
  - cbn [total_pages]. now rewrite length_map.
  - cbn [total_pages missing_descriptions]. rewrite !length_map. lia.
Qed.

End MainFacts.

(** The sample project reaches the report: the hypothesis of C2 holds of
    it. *)
Lemma main_exit_status_sample :
  let (missing, coverage) :=
    main_loop sample_lookup
      (iter_layout_pages (U := ascii_only) (root_walk sample_project)) in
  exists (opened : list str) (r : report) (code : Z),
    main (U := ascii_only) sample_project =
      (map EvOpen opened
         ++ EvStdout r
         :: map (fun e : str * str =>
                   EvStderr (pystr "Missing description for slug '"
                               ++ snd e ++ pystr "' from " ++ fst e))
              missing,
       Exit code)
    /\ missing_descriptions r = missing
    /\ (code = 0%Z <-> missing = [])
    /\ (code = 1%Z <-> missing <> []).
Proof.
  apply (@main_exit_status ascii_only sample_project sample_lookup).
  vm_compute. reflexivity.
Defined.

Lemma report_total_pages_sample :
  exists r : report,
    In (EvStdout r) (fst (main (U := ascii_only) sample_project))
    /\ (forall r',
          In (EvStdout r') (fst (main (U := ascii_only) sample_project)) ->
          r' = r)
    /\ total_pages r =
       Z.of_nat
         (length
            (filter (fun pg => page_inline pg
                               || dict_mem (page_slug pg) sample_lookup)
               (iter_layout_pages (U := ascii_only)
                  (root_walk sample_project))))
    /\ (total_pages r + Z.of_nat (length (missing_descriptions r))
        = Z.of_nat (length (iter_layout_pages (U := ascii_only)
                              (root_walk sample_project))))%Z.
Proof.
  apply (@report_total_pages ascii_only sample_project sample_lookup).
  vm_compute. reflexivity.
Defined.

(** ** The inline description *)

Lemma main_loop_app (lookup : dict str) (a b : list page) :
  main_loop lookup (a ++ b) =
  (fst (main_loop lookup a) ++ fst (main_loop lookup b),
   snd (main_loop lookup a) ++ snd (main_loop lookup b)).
Proof.
  rewrite !main_loop_filter. cbn [fst snd].
  now rewrite !filter_app, !map_app.
Qed.

Section InlineFlag.

Context {U : UnicodeData}.

(** A page whose block holds [pageDescription] is scanned with the flag
    set. *)
Lemma scan_file_inline (path filename text : str) (m : match_obj) :
  re_search include_pattern text = Some m ->
  str_contains (pystr "pageDescription") (m_group m 1) = true ->
  scan_file path filename text =
    [(path, slugify (slug_candidate (m_group m 1) filename), true)].
Proof.
  intros S C. unfold scan_file. now rewrite S, C.
Qed.

(** C9. A record that is covered through the lookup table stays covered
    when its flag [has_inline_description] is set: alone it is classified
    as covered again, and within any scan the two lists of the run are
    the same as before, so that no page moves to the missing ones.  On
    the side of the scanner, a file whose matched block holds
    [pageDescription] never adds to the missing ones. *)
Theorem inline_flag_monotone (lookup : dict str) (path slug : str)
    (before after : list page) :
  main_loop lookup [(path, slug, false)] = ([], [(path, slug)]) ->
  main_loop lookup [(path, slug, true)] = ([], [(path, slug)])
  /\ main_loop lookup (before ++ (path, slug, true) :: after)
     = main_loop lookup (before ++ (path, slug, false) :: after)
  /\ (forall (filename text : str) (m : match_obj),
        re_search include_pattern text = Some m ->
        str_contains (pystr "pageDescription") (m_group m 1) = true ->
        fst (main_loop lookup (scan_file path filename text)) = []).
Proof.
  intros H. split; [reflexivity|split].
  - change ((path, slug, true) :: after)
      with ([(path, slug, true)] ++ after).
    change ((path, slug, false) :: after)
      with ([(path, slug, false)] ++ after).
    rewrite !main_loop_app, H. reflexivity.
  - intros filename text m S C.
    rewrite (scan_file_inline path filename text S C). reflexivity.
Qed.

End InlineFlag.

Lemma inline_flag_monotone_sample :
  main_loop sample_lookup [(pystr "/site/about-us.html", pystr "about-us", true)]
  = ([], [(pystr "/site/about-us.html", pystr "about-us")])
  /\ main_loop sample_lookup
       ([(pystr "/site/contact.html", pystr "contact", false)]
          ++ (pystr "/site/about-us.html", pystr "about-us", true) :: [])
     = main_loop sample_lookup
         ([(pystr "/site/contact.html", pystr "contact", false)]
            ++ (pystr "/site/about-us.html", pystr "about-us", false) :: [])
  /\ (forall (filename text : str) (m : match_obj),
        re_search (include_pattern (U := ascii_only)) text = Some m ->
        str_contains (pystr "pageDescription") (m_group m 1) = true ->
        fst (main_loop sample_lookup
               (scan_file (U := ascii_only)
                  (pystr "/site/about-us.html") filename text)) = []).
Proof.
  apply (@inline_flag_monotone ascii_only sample_lookup
           (pystr "/site/about-us.html") (pystr "about-us")).
  vm_compute. reflexivity.
Defined.

(** ** The matcher on the shapes of the source's patterns *)

Section MatcherFacts.

Variable A : Type.
Implicit Types (k : str -> captures -> option A) (s w : str).

Lemma rmatch_Seq (a b : regex) s caps k :
  rmatch (Seq a b) s caps k
  = rmatch a s caps (fun s' caps' => rmatch b s' caps' k).
Proof. reflexivity. Qed.

Lemma rmatch_Class_cons (p : char -> bool) (c : char) s caps k :
  rmatch (Class p) (c :: s) caps k = if p c then k s caps else None.
Proof. reflexivity. Qed.

Lemma rmatch_Class_nil (p : char -> bool) caps k :
  rmatch (Class p) [] caps k = None.
Proof. reflexivity. Qed.

Lemma rmatch_Eps s caps k : rmatch Eps s caps k = k s caps.
Proof. reflexivity. Qed.

Lemma rmatch_Group (n : nat) (a : regex) s caps k :
  rmatch (Group n a) s caps k
  = rmatch a s caps
      (fun s' caps' => k s' ((n, firstn (length s - length s') s) :: caps')).
Proof. reflexivity. Qed.

Lemma rmatch_Lit w s caps k :
  rmatch (Lit w) s caps k =
  match strip_prefix w s with
  | Some rest => k rest caps
  | None => None
  end.
Proof.
  revert s; induction w as [|c w IH]; intros s; [reflexivity|].
  destruct s as [|x s]; [reflexivity|].
  cbn [Lit rmatch Chr strip_prefix].
  destruct (char_eqb c x); [apply IH|reflexivity].
Qed.

Lemma rmatch_Alt_class (p q : char -> bool) s caps k :
  rmatch (Alt (Class p) (Class q)) s caps k =
  match s with
  | c :: t => if p c || q c then k t caps else None
  | [] => None
  end.
Proof.
  destruct s as [|c t]; [reflexivity|]. cbn [rmatch].
  destruct (p c), (q c); cbn [orb]; try reflexivity;
    destruct (k t caps); reflexivity.
Qed.

Lemma star_loop_greedy_class (p : char -> bool) k fuel s caps :
  (length s <= fuel)%nat ->
  star_loop true (fun s' caps' k' => rmatch (Class p) s' caps' k') k
    fuel s caps
  = longest_first p k caps s.
Proof.
  revert s; induction fuel as [|fuel IH]; intros s L.
  - destruct s; [reflexivity|simpl in L; lia].
  - destruct s as [|c t]; [reflexivity|].
    cbn [star_loop rmatch longest_first].
    destruct (p c); [|reflexivity].
    replace (length t <? length (c :: t)) with true
      by (symmetry; apply Nat.ltb_lt; simpl; lia).
    rewrite IH by (simpl in L; lia). reflexivity.
Qed.

Lemma star_loop_lazy_class (p : char -> bool) k fuel s caps :
  (length s <= fuel)%nat ->
  star_loop false (fun s' caps' k' => rmatch (Class p) s' caps' k') k
    fuel s caps
  = shortest_first p k caps s.
Proof.
  revert s; induction fuel as [|fuel IH]; intros s L.
  - destruct s; [|simpl in L; lia].
    cbn [star_loop shortest_first]. destruct (k [] caps); reflexivity.
  - destruct s as [|c t].
    + cbn [star_loop rmatch shortest_first]. reflexivity.
    + cbn [star_loop rmatch]. 
      replace (length t <? length (c :: t)) with true
        by (symmetry; apply Nat.ltb_lt; simpl; lia).
      rewrite IH by (simpl in L; lia).
      cbn [shortest_first]. reflexivity.
Qed.

Lemma rmatch_star_greedy (p : char -> bool) s caps k :
  rmatch (Star true (Class p)) s caps k = longest_first p k caps s.
Proof. cbn [rmatch]. now apply star_loop_greedy_class. Qed.

Lemma rmatch_star_lazy (p : char -> bool) s caps k :
  rmatch (Star false (Class p)) s caps k = shortest_first p k caps s.
Proof. cbn [rmatch]. now apply star_loop_lazy_class. Qed.

(** A greedy run goes to its end when the continuation refuses every text
    that starts with a character of the class. *)
Lemma longest_first_refusing (p : char -> bool) k caps s :
  (forall c t, p c = true -> k (c :: t) caps = None) ->
  longest_first p k caps s = k (drop_while p s) caps.
Proof.
  intros R. induction s as [|c t IH]; [reflexivity|].
  cbn [longest_first drop_while].
  destruct (p c) eqn:E; [|reflexivity].
  rewrite IH. destruct (k (drop_while p t) caps) eqn:K; [reflexivity|].
  now apply R.
Qed.

(** So it does when the continuation accepts every text. *)
Lemma longest_first_accepting (p : char -> bool) k caps s :
  (forall t, k t caps <> None) ->
  longest_first p k caps s = k (drop_while p s) caps.
Proof.
  intros R. induction s as [|c t IH]; [reflexivity|].
  cbn [longest_first drop_while].
  destruct (p c) eqn:E; [|reflexivity].
  rewrite IH. destruct (k (drop_while p t) caps) eqn:K; [reflexivity|].
  now apply R in K.
Qed.

End MatcherFacts.

(** ** The declaration of the table *)

Lemma find_sub_none_inv (pat s : str) :
  find_sub pat s = None ->
  strip_prefix pat s = None
  /\ match s with [] => True | _ :: t => find_sub pat t = None end.
Proof.
  destruct s as [|c t]; simpl.
  - destruct (strip_prefix pat []); [discriminate|auto].
  - destruct (strip_prefix pat (c :: t)); [discriminate|].
    destruct (find_sub pat t) as [[? ?]|]; [discriminate|auto].
Qed.

Section Loader.

Context {U : UnicodeData}.

(** The pattern of the declaration matches only where the text starts
    with the marker. *)
Lemma entries_pattern_head (s : str) :
  strip_prefix entries_marker s = None ->
  match_at entries_pattern s = None.
Proof.
  intros H. unfold match_at, entries_pattern, Cat.
  cbn [fold_right rmatch]. rewrite rmatch_Lit, H. reflexivity.
Qed.

Lemma entries_search_none (s : str) (pos : nat) :
  str_contains entries_marker s = false ->
  search_from entries_pattern pos s = None.
Proof.
  unfold str_contains. revert pos.
  induction s as [|c t IH]; intros pos H.
  - destruct (find_sub entries_marker []) eqn:F; [discriminate|].
    apply find_sub_none_inv in F as [P _].
    cbn [search_from]. now rewrite (entries_pattern_head _ P).
  - destruct (find_sub entries_marker (c :: t)) eqn:F; [discriminate|].
    apply find_sub_none_inv in F as [P T].
    cbn [search_from]. rewrite (entries_pattern_head _ P).
    apply IH. now rewrite T.
Qed.

(** C4. When the text of the layout does not hold the marker of the
    declaration (the name [__layoutPageDescriptionEntries], or the whole
    opening [var __layoutPageDescriptionEntries = {]), the run ends in
    the loader: the layout is the only file opened, nothing is printed
    to either stream, and the run ends with the uncaught [RuntimeError]
    of the loader, not with an exit status of [main]. *)
Theorem missing_marker_is_fatal (p : project) :
  str_contains (pystr "__layoutPageDescriptionEntries") (layout_text p)
  = false
  \/ str_contains (pystr "var __layoutPageDescriptionEntries = {")
       (layout_text p) = false ->
  read_layout_lookup (layout_text p) =
    inl (RuntimeError
           (pystr "Could not locate __layoutPageDescriptionEntries in layout.html"))
  /\ main p =
     ([EvOpen (LAYOUT_PATH p)],
      Uncaught
        (RuntimeError
           (pystr "Could not locate __layoutPageDescriptionEntries in layout.html"))).
Proof.
  intros H.
  assert (M : str_contains entries_marker (layout_text p) = false).
  { destruct H as [H|H]; [|exact H].
    destruct (str_contains entries_marker (layout_text p)) eqn:C;
      [|reflexivity].
    change entries_marker
      with (pystr "var " ++ pystr "__layoutPageDescriptionEntries"
              ++ pystr " = {") in C.
    apply str_contains_part in C. congruence. }
  assert (L : read_layout_lookup (layout_text p) =
              inl (RuntimeError
                     (pystr "Could not locate __layoutPageDescriptionEntries in layout.html"))).
  { unfold read_layout_lookup, layout_entries, re_search.
    now rewrite entries_search_none by exact M. }
  split; [exact L|]. unfold main. now rewrite L.
Qed.

End Loader.

Lemma missing_marker_is_fatal_sample :
  read_layout_lookup (U := ascii_only) (layout_text broken_project) =
    inl (RuntimeError
           (pystr "Could not locate __layoutPageDescriptionEntries in layout.html"))
  /\ main (U := ascii_only) broken_project =
     ([EvOpen (LAYOUT_PATH broken_project)],
      Uncaught
        (RuntimeError
           (pystr "Could not locate __layoutPageDescriptionEntries in layout.html"))).
Proof.
  apply (@missing_marker_is_fatal ascii_only broken_project).
  left. vm_compute. reflexivity.
Defined.

(** ** Dictionaries keep one value per key *)

Section DictOrder.

Variable V : Type.
Implicit Types (d : dict V) (k : str) (v : V).

Lemma dict_get_In d k v : dict_get d k = Some v -> In (k, v) d.
Proof.
  induction d as [|[k' v'] d IH]; simpl; [discriminate|].
  destruct (str_eqb k' k) eqn:E.
  - apply str_eqb_eq in E. intros [= ->]. left. now subst.
  - intros H. right. auto.
Qed.

Lemma dict_get_None_keys d k : dict_get d k = None <-> ~ In k (dict_keys d).
Proof.
  induction d as [|[k' v'] d IH]; simpl; [tauto|].
  destruct (str_eqb k' k) eqn:E.
  - apply str_eqb_eq in E. split; [discriminate|]. intros N. tauto.
  - apply str_eqb_neq in E. rewrite IH. tauto.
Qed.

Lemma In_dict_get d k v :
  NoDup (dict_keys d) -> In (k, v) d -> dict_get d k = Some v.
Proof.
  induction d as [|[k' v'] d IH]; simpl; [tauto|].
  intros N [H|H].
  - inversion H; subst. now rewrite str_eqb_refl.
  - inversion N as [|? ? N1 N2]; subst.
    destruct (str_eqb k' k) eqn:E; [|auto].
    apply str_eqb_eq in E. subst k'. exfalso. apply N1.
    change k with (fst (k, v)). now apply in_map.
Qed.

Lemma dict_set_keys d k v :
  dict_keys (dict_set d k v) =
  if dict_mem k d then dict_keys d else dict_keys d ++ [k].
Proof.
  unfold dict_mem.
  induction d as [|[k' v'] d IH]; simpl; [reflexivity|].
  destruct (str_eqb k' k) eqn:E; simpl; [reflexivity|].
  rewrite IH. destruct (dict_get d k); reflexivity.
Qed.

Lemma dict_set_NoDup d k v :
  NoDup (dict_keys d) -> NoDup (dict_keys (dict_set d k v)).
Proof.
  intros N. rewrite dict_set_keys.
  destruct (dict_mem k d) eqn:M; [exact N|].
  apply dict_mem_false, dict_get_None_keys in M.
  apply NoDup_app; [exact N | repeat constructor; auto |].
  intros x Hx [->|[]]. contradiction.
Qed.

Lemma dict_of_pairs_NoDup (pairs : list (str * V)) :
  NoDup (dict_keys (dict_of_pairs pairs)).
Proof.
  unfold dict_of_pairs.
  assert (G : forall d, NoDup (dict_keys d) ->
                NoDup (dict_keys
                         (fold_left (fun d kv => dict_set d (fst kv) (snd kv))
                            pairs d))).
  { induction pairs as [|[k v] pairs IH]; intros d N; [exact N|].
    simpl. apply IH. now apply dict_set_NoDup. }
  apply G. constructor.
Qed.

Lemma dict_mem_set d k k' v :
  dict_mem k' d = true -> dict_mem k' (dict_set d k v) = true.
Proof.
  intros M. apply dict_mem_get in M as [v' M]. apply dict_mem_get.
  destruct (str_eqb k k') eqn:E.
  - apply str_eqb_eq in E. subst. exists v. apply dict_get_set_same.
  - apply str_eqb_neq in E. exists v'. now rewrite dict_get_set_other.
Qed.

End DictOrder.

(** ** What the groups of a match hold *)

Lemma firstn_exact {A : Type} (a b : list A) : firstn (length a) (a ++ b) = a.
Proof. induction a as [|x a IH]; [reflexivity|]. simpl. now rewrite IH. Qed.

Lemma skipn_exact {A : Type} (a b : list A) : skipn (length a) (a ++ b) = b.
Proof. induction a as [|x a IH]; [reflexivity|]. exact IH. Qed.

Section GroupFacts.

Variable A : Type.
Implicit Types (k : str -> captures -> option A) (s : str) (r : regex).

Lemma longest_first_split (p : char -> bool) k caps s (x : A) :
  longest_first p k caps s = Some x ->
  exists pre suf,
    s = pre ++ suf
    /\ Forall (fun c => p c = true) pre
    /\ k suf caps = Some x.
Proof.
  induction s as [|c t IH]; cbn [longest_first].
  - intros H. exists [], []. auto.
  - destruct (p c) eqn:P.
    + destruct (longest_first p k caps t) as [y|] eqn:L.
      * intros [= ->]. destruct (IH eq_refl) as (pre & suf & -> & F & K).
        exists (c :: pre), suf. auto.
      * intros H. exists [], (c :: t). auto.
    + intros H. exists [], (c :: t). auto.
Qed.

Lemma rmatch_class_inv (q : char -> bool) r s caps k (x : A) :
  rmatch (Seq (Class q) r) s caps k = Some x ->
  exists c t, s = c :: t /\ q c = true /\ rmatch r t caps k = Some x.
Proof.
  rewrite rmatch_Seq. destruct s as [|c t]; [discriminate|].
  rewrite rmatch_Class_cons. destruct (q c) eqn:Q; [|discriminate].
  intros H. exists c, t. auto.
Qed.

Lemma rmatch_star_inv (p : char -> bool) r s caps k (x : A) :
  rmatch (Seq (Star true (Class p)) r) s caps k = Some x ->
  exists ws suf,
    s = ws ++ suf
    /\ Forall (fun c => p c = true) ws
    /\ rmatch r suf caps k = Some x.
Proof.
  rewrite rmatch_Seq, rmatch_star_greedy. apply longest_first_split.
Qed.

Lemma rmatch_group_plus_inv (n : nat) (p : char -> bool) r s caps k (x : A) :
  rmatch (Seq (Group n (Plus true (Class p))) r) s caps k = Some x ->
  exists g suf,
    s = g ++ suf
    /\ g <> []
    /\ Forall (fun c => p c = true) g
    /\ rmatch r suf ((n, g) :: caps) k = Some x.
Proof.
  rewrite rmatch_Seq, rmatch_Group. unfold Plus. rewrite rmatch_Seq.
  destruct s as [|c t]; [discriminate|].
  rewrite rmatch_Class_cons. destruct (p c) eqn:P; [|discriminate].
  rewrite rmatch_star_greedy. intros H.
  apply longest_first_split in H as (pre & suf & -> & F & K).
  exists (c :: pre), suf. repeat split; [discriminate|now constructor|].
  replace (firstn (length (c :: pre ++ suf) - length suf) (c :: pre ++ suf))
    with (c :: pre) in K; [exact K|].
  change (c :: pre ++ suf) with ((c :: pre) ++ suf).
  rewrite length_app, Nat.add_sub. now rewrite firstn_exact.
Qed.

End GroupFacts.

(** Every element of [finditer] is the groups of a match of the pattern
    somewhere. *)
Lemma finditer_in (r : regex) (fuel : nat) (s : str) (caps : captures) :
  In caps (finditer_fuel r fuel s) ->
  exists u rest, match_at r u = Some (rest, caps).
Proof.
  revert s; induction fuel as [|fuel IH]; intros s; [intros []|].
  destruct s as [|c t]; [intros []|].
  cbn [finditer_fuel].
  destruct (match_at r (c :: t)) as [[rest caps']|] eqn:M.
  - intros [<-|I]; [eauto|]. now apply IH in I.
  - intros I. now apply IH in I.
Qed.

Lemma fold_set_get_In {V : Type} (l : list (str * V)) (d : dict V)
    (k : str) (v : V) :
  dict_get (fold_left (fun d kv => dict_set d (fst kv) (snd kv)) l d) k
  = Some v ->
  In (k, v) l \/ dict_get d k = Some v.
Proof.
  revert d; induction l as [|[k' v'] l IH]; intros d H; [now right|].
  cbn [fold_left fst snd] in H. destruct (IH _ H) as [I|G].
  - left. now right.
  - destruct (str_eqb k' k) eqn:E.
    + apply str_eqb_eq in E. subst k'. rewrite dict_get_set_same in G.
      inversion G; subst. left. now left.
    + apply str_eqb_neq in E. rewrite dict_get_set_other in G by exact E.
      now right.
Qed.

Lemma dict_of_pairs_In {V : Type} (l : list (str * V)) (k : str) (v : V) :
  dict_get (dict_of_pairs l) k = Some v -> In (k, v) l.
Proof.
  intros H. apply fold_set_get_In in H as [I|G]; [exact I|discriminate].
Qed.

Lemma filter_filter_same {A : Type} (f : A -> bool) (l : list A) :
  filter f (filter f l) = filter f l.
Proof.
  induction l as [|a l IH]; [reflexivity|]. simpl.
  destruct (f a) eqn:E; [|exact IH]. simpl. now rewrite E, IH.
Qed.

Lemma Forall_not_in (x : char) (s : str) :
  Forall (fun c => negb (char_eqb c x) = true) s -> ~ In x s.
Proof.
  intros F I. rewrite Forall_forall in F. apply F in I.
  unfold char_eqb in I. now rewrite N.eqb_refl in I.
Qed.

Section ParsedPairs.

Context {U : UnicodeData}.

(** A match of the pattern of an entry: a quoted key, a colon, white
    space, a quoted description; key and description are not empty and
    hold no quote. *)
Lemma entry_match_inv (s rest : str) (caps : captures) :
  match_at entry_pattern s = Some (rest, caps) ->
  exists key ws description,
    s = squote :: key ++ squote :: chr ":" :: ws
          ++ squote :: description ++ squote :: rest
    /\ key <> [] /\ ~ In squote key
    /\ Forall (fun c => is_space c = true) ws
    /\ description <> [] /\ ~ In squote description
    /\ caps = [(2%nat, description); (1%nat, key)].
Proof.
  unfold match_at, entry_pattern, Cat, Chr, not_squote. cbn [fold_right].
  intros H.
  apply rmatch_class_inv in H as (c1 & s1 & -> & Q1 & H).
  apply rmatch_group_plus_inv in H as (key & s2 & -> & Nk & Fk & H).
  apply rmatch_class_inv in H as (c2 & s3 & -> & Q2 & H).
  apply rmatch_class_inv in H as (c3 & s4 & -> & Q3 & H).
  apply rmatch_star_inv in H as (ws & s5 & -> & Fw & H).
  apply rmatch_class_inv in H as (c4 & s6 & -> & Q4 & H).
  apply rmatch_group_plus_inv in H as (d & s7 & -> & Nd & Fd & H).
  apply rmatch_class_inv in H as (c5 & s8 & -> & Q5 & H).
  rewrite rmatch_Eps in H. inversion H; subst s8 caps. clear H.
  unfold char_eqb in Q1, Q2, Q3, Q4, Q5.
  apply N.eqb_eq in Q1, Q2, Q3, Q4, Q5. subst c1 c2 c3 c4 c5.
  exists key, ws, d. repeat split; auto using Forall_not_in.
Qed.

(** A match of the pattern of a property: a key of word characters, a
    colon between optional white space, and a value without comma or
    line feed; neither is empty. *)
Lemma prop_match_inv (s rest : str) (caps : captures) :
  match_at prop_pattern s = Some (rest, caps) ->
  exists key value,
    key <> [] /\ Forall (fun c => is_word c = true) key
    /\ value <> [] /\ ~ In (chr ",") value /\ ~ In 10%N value
    /\ caps = [(2%nat, value); (1%nat, key)].
Proof.
  unfold match_at, prop_pattern, Cat, Chr. cbn [fold_right].
  intros H.
  apply rmatch_group_plus_inv in H as (key & s1 & -> & Nk & Fk & H).
  apply rmatch_star_inv in H as (w1 & s2 & -> & _ & H).
  apply rmatch_class_inv in H as (c & s3 & -> & _ & H).
  apply rmatch_star_inv in H as (w2 & s4 & -> & _ & H).
  apply rmatch_group_plus_inv in H as (v & s5 & -> & Nv & Fv & H).
  rewrite rmatch_Eps in H. inversion H; subst s5 caps. clear H.
  exists key, v. repeat split; auto.
  - intros I. rewrite Forall_forall in Fv. apply Fv in I.
    unfold char_eqb in I. rewrite N.eqb_refl in I. discriminate.
  - intros I. rewrite Forall_forall in Fv. apply Fv in I.
    unfold char_eqb in I. rewrite N.eqb_refl, orb_true_r in I. discriminate.
Qed.

Lemma findall_entry_in (block key description : str) :
  In (key, description) (re_findall2 entry_pattern block) ->
  key <> [] /\ ~ In squote key
  /\ description <> [] /\ ~ In squote description.
Proof.
  unfold re_findall2. intros I.
  apply in_map_iff in I as (caps & E & I).
  apply finditer_in in I as (u & rest & M).
  apply entry_match_inv in M as (k & ws & d & _ & Nk & Qk & _ & Nd & Qd & ->).
  cbn in E. inversion E; subst. auto.
Qed.

Lemma layout_entries_wellformed (text : str) (entries : dict str)
    (key description : str) :
  layout_entries text = Some entries ->
  dict_get entries key = Some description ->
  key <> [] /\ ~ In squote key
  /\ description <> [] /\ ~ In squote description.
Proof.
  unfold layout_entries.
  destruct (re_search entries_pattern text) as [m|]; [|discriminate].
  intros [= <-] G. apply dict_of_pairs_In in G.
  now apply findall_entry_in in G.
Qed.

End ParsedPairs.

(** ** The aliases of the lookup table *)

Lemma is_empty_false {A : Type} (l : list A) : is_empty l = false <-> l <> [].
Proof. destruct l; simpl; split; congruence. Qed.

Lemma is_empty_true {A : Type} (l : list A) : is_empty l = true <-> l = [].
Proof. destruct l; simpl; split; congruence. Qed.

(** The first occurrence of a single character. *)
Lemma find_sub_char (h : char) (s : str) :
  match find_sub [h] s with
  | Some (before, after) =>
      s = before ++ h :: after
      /\ filter (fun c => negb (char_eqb c h)) before = before
  | None => filter (fun c => negb (char_eqb c h)) s = s
  end.
Proof.
  induction s as [|y t IH]; [simpl; reflexivity|].
  cbn [find_sub strip_prefix].
  destruct (char_eqb h y) eqn:E.
  - unfold char_eqb in E. apply N.eqb_eq in E. subst y. split; reflexivity.
  - assert (E' : char_eqb y h = false).
    { unfold char_eqb in *. now rewrite N.eqb_sym. }
    destruct (find_sub [h] t) as [[before after]|].
    + destruct IH as [-> F]. split; [reflexivity|].
      simpl. now rewrite E', F.
    + simpl. now rewrite E', IH.
Qed.

(** [key.replace("-", "")] removes the hyphens of the key. *)
Lemma replace_char_fuel (h : char) (fuel : nat) (s : str) :
  (length s <= fuel)%nat ->
  replace_fuel fuel [h] [] s = filter (fun c => negb (char_eqb c h)) s.
Proof.
  revert s; induction fuel as [|fuel IH]; intros s L.
  - destruct s; [reflexivity|simpl in L; lia].
  - cbn [replace_fuel]. pose proof (find_sub_char h s) as F.
    destruct (find_sub [h] s) as [[before after]|]; [|now rewrite F].
    destruct F as [-> F]. rewrite length_app in L. simpl in L.
    rewrite IH by lia. rewrite filter_app, F. simpl.
    unfold char_eqb at 2. now rewrite N.eqb_refl.
Qed.

Lemma replace_hyphens (key : str) :
  py_replace (pystr "-") [] key
  = filter (fun c => negb (char_eqb c (chr "-"))) key.
Proof. unfold py_replace. now apply replace_char_fuel. Qed.

Section LookupInvariant.

Variable entries : dict str.
Hypothesis entries_keys : NoDup (dict_keys entries).

Lemma alias_of_later done x a d :
  alias_of entries done a d -> alias_of entries (done ++ [x]) a d.
Proof.
  intros [N (l1 & k & l2 & -> & H)]. split; [exact N|].
  exists l1, k, (l2 ++ [x]). split; [|exact H].
  now rewrite <- app_assoc.
Qed.

Lemma lookup_step_inv done lookup key description :
  incl (done ++ [(key, description)]) entries ->
  lookup_inv entries done lookup ->
  lookup_inv entries (done ++ [(key, description)])
    (lookup_step entries lookup (key, description)).
Proof.
  intros I [E O S].
  assert (Ikey : In (key, description) entries).
  { apply I, in_or_app. right. left. reflexivity. }
  assert (Idone : forall k d, In (k, d) done -> dict_mem k entries = true).
  { intros k d H. apply dict_mem_get. exists d.
    apply In_dict_get; [exact entries_keys|].
    apply I, in_or_app. now left. }
  unfold lookup_step. rewrite replace_hyphens.
  set (collapsed := filter (fun c => negb (char_eqb c (chr "-"))) key).
  destruct (is_empty description) eqn:Ed.
  { apply is_empty_true in Ed. subst description. constructor.
    - intros k d H Hd. apply in_app_or in H as [H|[H|[]]]; [eauto|].
      inversion H; subst. congruence.
    - intros a d H. destruct (O a d H) as [[H1 H2]|H1].
      + left. split; [apply in_or_app; now left|exact H2].
      + right. now apply alias_of_later.
    - intros k d H Hd. apply in_app_or in H as [H|[H|[]]]; [eauto|].
      inversion H; subst. congruence. }
  apply is_empty_false in Ed.
  set (lookup1 := dict_set lookup key description).
  assert (E1 : forall k d, In (k, d) (done ++ [(key, description)]) ->
                 d <> [] -> dict_get lookup1 k = Some d).
  { intros k d H Hd. unfold lookup1.
    destruct (str_eqb key k) eqn:K.
    - apply str_eqb_eq in K. subst k.
      assert (d = description).
      { apply I in H. apply (@In_dict_get _ _ _ _ entries_keys) in H.
        apply (@In_dict_get _ _ _ _ entries_keys) in Ikey. congruence. }
      subst d. apply dict_get_set_same.
    - apply str_eqb_neq in K. rewrite dict_get_set_other by exact K.
      apply in_app_or in H as [H|[H|[]]]; [eauto|].
      inversion H; subst. congruence. }
  assert (O1 : forall a d, dict_get lookup1 a = Some d ->
                 (In (a, d) (done ++ [(key, description)]) /\ d <> [])
                 \/ alias_of entries (done ++ [(key, description)]) a d).
  { intros a d H. unfold lookup1 in H.
    destruct (str_eqb key a) eqn:K.
    - apply str_eqb_eq in K. subst a. rewrite dict_get_set_same in H.
      inversion H; subst. left. split; [|exact Ed].
      apply in_or_app. right. left. reflexivity.
    - apply str_eqb_neq in K. rewrite dict_get_set_other in H by exact K.
      destruct (O a d H) as [[H1 H2]|H1].
      + left. split; [apply in_or_app; now left|exact H2].
      + right. now apply alias_of_later. }
  assert (S1 : forall k d, In (k, d) done -> d <> [] ->
                 let a := filter (fun c => negb (char_eqb c (chr "-"))) k in
                 a = [] \/ a = k \/ dict_mem a entries = true
                 \/ dict_mem a lookup1 = true).
  { intros k d H Hd a. destruct (S k d H Hd) as [?|[?|[?|M]]]; auto.
    right. right. right. now apply dict_mem_set. }
  destruct (negb (is_empty collapsed) && negb (str_eqb collapsed key)
            && negb (dict_mem collapsed entries)
            && negb (dict_mem collapsed lookup1)) eqn:C.
  - apply andb_true_iff in C as [C C4]. apply andb_true_iff in C as [C C3].
    apply andb_true_iff in C as [C1 C2].
    apply negb_true_iff in C1, C2, C3, C4.
    apply is_empty_false in C1. apply str_eqb_neq in C2.
    constructor.
    + intros k d H Hd. rewrite dict_get_set_other; [now apply E1|].
      intros ->. apply I in H. apply (@In_dict_get _ _ _ _ entries_keys) in H.
      unfold dict_mem in C3. now rewrite H in C3.
    + intros a d H. destruct (str_eqb collapsed a) eqn:K.
      * apply str_eqb_eq in K. subst a. rewrite dict_get_set_same in H.
        inversion H; subst d. right. split; [now apply dict_mem_false|].
        exists done, key, []. repeat split; auto.
        intros k' d' H' Hd' Q.
        destruct (S1 k' d' H' Hd') as [Z|[Z|[Z|Z]]]; cbv zeta in Z;
          rewrite Q in Z.
        -- contradiction.
        -- rewrite Z in C3. rewrite (Idone k' d' H') in C3. discriminate.
        -- congruence.
        -- congruence.
      * apply str_eqb_neq in K. rewrite dict_get_set_other in H by exact K.
        now apply O1.
    + intros k d H Hd a. apply in_app_or in H as [H|[H|[]]].
      * destruct (S1 k d H Hd) as [?|[?|[?|M]]]; auto.
        right. right. right. now apply dict_mem_set.
      * inversion H; subst k d. right. right. right.
        apply dict_mem_get. exists description. apply dict_get_set_same.
  - constructor; [exact E1|exact O1|].
    intros k d H Hd a. apply in_app_or in H as [H|[H|[]]];
      [exact (S1 k d H Hd)|].
    inversion H; subst k d. fold collapsed in a. subst a.
    apply andb_false_iff in C as [C|C];
      [apply andb_false_iff in C as [C|C];
       [apply andb_false_iff in C as [C|C]|]|];
      apply negb_false_iff in C.
    + left. now apply is_empty_true.
    + right. left. now apply str_eqb_eq.
    + auto.
    + auto.
Qed.

Lemma lookup_fold_inv todo done lookup :
  incl (done ++ todo) entries ->
  lookup_inv entries done lookup ->
  lookup_inv entries (done ++ todo)
    (fold_left (lookup_step entries) todo lookup).
Proof.
  revert done lookup; induction todo as [|[k d] todo IH];
    intros done lookup I Inv.
  - now rewrite app_nil_r.
  - cbn [fold_left].
    replace (done ++ (k, d) :: todo) with ((done ++ [(k, d)]) ++ todo) in *
      by now rewrite <- app_assoc.
    apply IH; [exact I|].
    apply lookup_step_inv; [|exact Inv].
    intros x Hx. apply I, in_or_app. now left.
Qed.

Lemma build_lookup_inv : lookup_inv entries entries (build_lookup entries).
Proof.
  unfold build_lookup, dict_items.
  apply (@lookup_fold_inv entries [] []); [apply incl_refl|].
  constructor.
  - intros k d [].
  - intros a d H. discriminate.
  - intros k d [].
Qed.

End LookupInvariant.

Section Aliases.

Context {U : UnicodeData}.


End Aliases.



(** ** Substitution of the runs of a class *)

Lemma match_at_plus_class (p : char -> bool) (s : str) :
  match_at (Plus true (Class p)) s =
  match s with
  | c :: t => if p c then Some (drop_while p t, []) else None
  | [] => None
  end.
Proof.
  unfold match_at, Plus. destruct s as [|c t]; [reflexivity|].
  rewrite rmatch_Seq, rmatch_Class_cons. destruct (p c); [|reflexivity].
  rewrite rmatch_star_greedy, longest_first_accepting; [reflexivity|].
  intros; discriminate.
Qed.

Lemma drop_while_length (p : char -> bool) (s : str) :
  (length (drop_while p s) <= length s)%nat.
Proof.
  induction s as [|c t IH]; simpl; [lia|]. destruct (p c); simpl; lia.
Qed.

Lemma sub_runs_in_run (p : char -> bool) (repl s : str) :
  sub_runs p repl true s = sub_runs p repl false (drop_while p s).
Proof.
  induction s as [|c t IH]; [reflexivity|]. simpl.
  destruct (p c) eqn:E; [exact IH|]. simpl. now rewrite E.
Qed.

Lemma sub_fuel_runs (p : char -> bool) (repl : str) (fuel : nat) (s : str) :
  (length s <= fuel)%nat ->
  sub_fuel (Plus true (Class p)) repl fuel s = sub_runs p repl false s.
Proof.
  revert s; induction fuel as [|fuel IH]; intros s L.
  - destruct s; [reflexivity|simpl in L; lia].
  - destruct s as [|c t]; [reflexivity|].
    cbn [sub_fuel]. rewrite match_at_plus_class.
    cbn [sub_runs]. destruct (p c) eqn:E.
    + pose proof (drop_while_length p t) as D.
      replace (length (drop_while p t) <? length (c :: t)) with true
        by (symmetry; apply Nat.ltb_lt; simpl; lia).
      rewrite IH by (simpl in L; lia).
      now rewrite sub_runs_in_run.
    + rewrite IH by (simpl in L; lia). reflexivity.
Qed.

Lemma re_sub_runs (p : char -> bool) (repl s : str) :
  re_sub (Plus true (Class p)) repl s = sub_runs p repl false s.
Proof. unfold re_sub. now apply sub_fuel_runs. Qed.

(** ** Stripping at both ends *)

Lemma drop_while_snoc (p : char -> bool) (l : str) (c : char) :
  drop_while p (l ++ [c]) =
  match drop_while p l with
  | [] => if p c then [] else [c]
  | r => r ++ [c]
  end.
Proof.
  induction l as [|x l IH]; [reflexivity|].
  simpl. destruct (p x); [exact IH|reflexivity].
Qed.

Lemma rev_drop_while_rev (p : char -> bool) (s : str) :
  rev (drop_while p (rev s)) = drop_end p s.
Proof.
  induction s as [|c t IH]; [reflexivity|].
  cbn [rev drop_end]. rewrite drop_while_snoc, <- IH.
  destruct (drop_while p (rev t)) as [|x r] eqn:E.
  - simpl. destruct (p c); reflexivity.
  - rewrite rev_app_distr. simpl.
    destruct (rev r ++ [x]) eqn:F; [|reflexivity].
    destruct (rev r); discriminate.
Qed.

Lemma strip_by_ends (p : char -> bool) (s : str) :
  strip_by p s = drop_end p (drop_while p s).
Proof. unfold strip_by. apply rev_drop_while_rev. Qed.

(** ** The shape of a slug *)

Lemma slug_tail_cons (b : bool) (c : char) (t : str) :
  slug_tail b (c :: t) =
  if is_slug_alnum c then slug_tail false t
  else if is_hyphen c then negb b && slug_tail true t
  else false.
Proof. reflexivity. Qed.

Ltac char_arith :=
  unfold is_slug_alnum, is_alnum_ascii, is_ascii_upper, is_ascii_lower,
    is_ascii_digit, is_ascii, ascii_isspace, is_hyphen, hyphen, char_eqb,
    in_range, ascii_lower in *;
  repeat match goal with
         | H : _ && _ = true |- _ => apply andb_true_iff in H as [? ?]
         | H : _ || _ = true |- _ => apply orb_true_iff in H as [?|?]
         | H : _ && _ = false |- _ => apply andb_false_iff in H as [?|?]
         | H : _ || _ = false |- _ => apply orb_false_iff in H as [? ?]
         | H : negb _ = true |- _ => apply negb_true_iff in H
         | H : negb _ = false |- _ => apply negb_false_iff in H
         | H : N.leb _ _ = true |- _ => apply N.leb_le in H
         | H : N.leb _ _ = false |- _ => apply N.leb_gt in H
         | H : N.ltb _ _ = true |- _ => apply N.ltb_lt in H
         | H : N.ltb _ _ = false |- _ => apply N.ltb_ge in H
         | H : N.eqb _ _ = true |- _ => apply N.eqb_eq in H
         | H : N.eqb _ _ = false |- _ => apply N.eqb_neq in H
         end.

Lemma is_hyphen_eq (c : char) : is_hyphen c = true -> c = hyphen.
Proof. unfold is_hyphen, char_eqb. apply N.eqb_eq. Qed.

Lemma slug_alnum_not_hyphen (c : char) :
  is_slug_alnum c = true -> is_hyphen c = false.
Proof.
  intros H. destruct (is_hyphen c) eqn:E; [|reflexivity].
  apply is_hyphen_eq in E. subst c. discriminate H.
Qed.

Lemma slug_alnum_is_alnum (c : char) :
  is_slug_alnum c = true -> is_alnum_ascii c = true.
Proof.
  unfold is_slug_alnum, is_alnum_ascii. intros H.
  apply orb_true_iff in H as [H|H]; rewrite H;
    rewrite ?orb_true_r; reflexivity.
Qed.

Lemma alnum_not_upper (c : char) :
  is_alnum_ascii c = true -> is_ascii_upper c = false ->
  is_slug_alnum c = true.
Proof.
  unfold is_slug_alnum, is_alnum_ascii. intros H N. now rewrite N in H.
Qed.

Lemma hyphen_not_alnum : is_alnum_ascii hyphen = false.
Proof. reflexivity. Qed.

(** The characters after the first substitution. *)
Lemma sub_non_alnum_chars (s : str) (b : bool) :
  Forall (fun c => is_ascii_upper c = false) s ->
  Forall (fun c => is_slug_alnum c = true \/ c = hyphen)
    (sub_runs (fun c => negb (is_alnum_ascii c)) (pystr "-") b s).
Proof.
  intros F. revert b. induction F as [|c t Hc Ht IH]; intros b.
  - constructor.
  - cbn [sub_runs]. destruct (is_alnum_ascii c) eqn:E; cbn [negb].
    + constructor; [left; now apply alnum_not_upper|apply IH].
    + destruct b; [apply IH|].
      change (pystr "-" ++ ?x) with (hyphen :: x).
      constructor; [now right|apply IH].
Qed.

(** After the second substitution no two hyphens are neighbours. *)
Lemma sub_hyphen_loose (s : str) (b : bool) :
  Forall (fun c => is_slug_alnum c = true \/ c = hyphen) s ->
  loose b (sub_runs is_hyphen (pystr "-") b s) = true.
Proof.
  intros F. revert b. induction F as [|c t Hc Ht IH]; intros b.
  - reflexivity.
  - cbn [sub_runs]. destruct Hc as [A| ->].
    + rewrite (slug_alnum_not_hyphen _ A). cbn [loose]. now rewrite A.
    + change (is_hyphen hyphen) with true. cbv iota.
      destruct b; [apply IH|].
      change (pystr "-" ++ ?x) with (hyphen :: x).
      cbn [loose]. change (is_slug_alnum hyphen) with false.
      change (is_hyphen hyphen) with true. cbv iota. apply IH.
Qed.

Lemma loose_weaken (s : str) : loose true s = true -> loose false s = true.
Proof.
  destruct s as [|c t]; [reflexivity|]. simpl.
  destruct (is_slug_alnum c); [auto|].
  destruct (is_hyphen c); [discriminate|auto].
Qed.

(** Without its leading hyphens, a loose text starts with an
    alphanumeric. *)
Lemma loose_drop_leading (s : str) :
  loose false s = true ->
  loose false (drop_while is_hyphen s) = true
  /\ match drop_while is_hyphen s with
     | [] => True
     | c :: _ => is_slug_alnum c = true
     end.
Proof.
  destruct s as [|c t]; [simpl; auto|].
  cbn [loose drop_while]. destruct (is_slug_alnum c) eqn:A.
  - rewrite (slug_alnum_not_hyphen _ A). intros H. cbn [loose].
    rewrite A. auto.
  - destruct (is_hyphen c) eqn:Hy; [|discriminate].
    cbn [negb andb]. intros H.
    destruct t as [|x t']; [simpl; auto|].
    cbn [loose] in H. cbn [drop_while].
    destruct (is_slug_alnum x) eqn:Ax.
    + rewrite (slug_alnum_not_hyphen _ Ax). cbn [loose]. rewrite Ax. auto.
    + destruct (is_hyphen x); discriminate.
Qed.

(** Without its trailing hyphens, a loose text is empty or ends as a slug
    does. *)
Lemma loose_drop_trailing (s : str) (b : bool) :
  loose b s = true ->
  drop_end is_hyphen s = [] \/ slug_tail b (drop_end is_hyphen s) = true.
Proof.
  revert b; induction s as [|c t IH]; intros b; [simpl; auto|].
  cbn [loose drop_end]. destruct (is_slug_alnum c) eqn:A.
  - intros H. right. rewrite (slug_alnum_not_hyphen _ A).
    destruct (IH false H) as [E|E].
    + rewrite E. simpl. now rewrite A.
    + destruct (drop_end is_hyphen t) as [|x r] eqn:D.
      * simpl. now rewrite A.
      * cbn [slug_tail]. now rewrite A.
  - destruct (is_hyphen c) eqn:Hy; [|discriminate].
    intros H. apply andb_true_iff in H as [Hb H].
    destruct (IH true H) as [E|E].
    + rewrite E. now left.
    + right. destruct (drop_end is_hyphen t) as [|x r] eqn:D;
        [discriminate|].
      rewrite slug_tail_cons. now rewrite A, Hy, Hb, E.
Qed.

Lemma drop_end_head (p : char -> bool) (c : char) (t : str) :
  drop_end p (c :: t) = [] \/ exists r, drop_end p (c :: t) = c :: r.
Proof.
  cbn [drop_end]. destruct (drop_end p t) as [|x r].
  - destruct (p c); eauto.
  - eauto.
Qed.

Lemma loose_strip (s : str) :
  loose false s = true ->
  strip_by is_hyphen s = [] \/ slug_ok (strip_by is_hyphen s) = true.
Proof.
  intros L. rewrite strip_by_ends.
  destruct (loose_drop_leading s L) as [L' Hd].
  destruct (drop_while is_hyphen s) as [|c t]; [now left|].
  destruct (loose_drop_trailing _ _ L') as [E|E]; [now left|].
  destruct (drop_end_head is_hyphen c t) as [Z|[r Z]];
    rewrite Z in *; [now left|right].
  rewrite slug_tail_cons in E. cbn [slug_ok]. rewrite Hd in *. exact E.
Qed.

Lemma drop_while_ext (p q : char -> bool) (s : str) :
  (forall c, p c = q c) -> drop_while p s = drop_while q s.
Proof.
  intros E. induction s as [|c t IH]; [reflexivity|].
  simpl. rewrite E, IH. reflexivity.
Qed.

Lemma strip_by_ext (p q : char -> bool) (s : str) :
  (forall c, p c = q c) -> strip_by p s = strip_by q s.
Proof.
  intros E. unfold strip_by.
  now rewrite (drop_while_ext p q s E), (drop_while_ext p q _ E).
Qed.

Lemma sub_runs_ext (p q : char -> bool) (repl : str) (b : bool) (s : str) :
  (forall c, p c = q c) -> sub_runs p repl b s = sub_runs q repl b s.
Proof.
  intros E. revert b; induction s as [|c t IH]; intros b; [reflexivity|].
  simpl. rewrite E, !IH. reflexivity.
Qed.

Section Slugify.

Context {U : UnicodeData}.

(** [slugify], with its two substitutions and its last strip written on
    the runs they address. *)
Lemma slugify_runs (value : str) :
  slugify value =
  strip_by is_hyphen
    (sub_runs is_hyphen (pystr "-") false
       (sub_runs (fun c => negb (is_alnum_ascii c)) (pystr "-") false
          (py_lower (py_strip value)))).
Proof.
  unfold slugify, non_alnum_run, hyphen_run, Chr, py_strip_chars.
  rewrite !re_sub_runs.
  rewrite (sub_runs_ext (char_eqb (chr "-")) is_hyphen).
  - apply strip_by_ext. intros c. simpl. apply orb_false_r.
  - intros c. unfold is_hyphen, hyphen, char_eqb. apply N.eqb_sym.
Qed.

Lemma py_lower_no_upper (s : str) :
  Forall (fun c => is_ascii_upper c = false) (py_lower s).
Proof.
  apply Forall_forall. intros c H. unfold py_lower in H.
  destruct (forallb is_ascii s).
  - now apply map_ascii_lower_no_upper in H.
  - now apply uni_lower_no_upper in H.
Qed.

Lemma slugify_shape (value : str) :
  slugify value = [] \/ slug_ok (slugify value) = true.
Proof.
  rewrite slugify_runs. apply loose_strip, sub_hyphen_loose.
  apply sub_non_alnum_chars, py_lower_no_upper.
Qed.

End Slugify.

(** ** The shape and the pattern of the specification *)

Lemma longest_first_reaches {A : Type} (p : char -> bool)
    (k : str -> captures -> option A) (caps : captures) (s : str) (x : A) :
  k (drop_while p s) caps = Some x ->
  exists y, longest_first p k caps s = Some y.
Proof.
  induction s as [|c t IH]; cbn [drop_while longest_first]; [eauto|].
  destruct (p c); [|eauto].
  intros H. destruct (IH H) as [y ->]. eauto.
Qed.

Lemma rmatch_Star (g : bool) (a : regex) {A : Type} (s : str)
    (caps : captures) (k : str -> captures -> option A) :
  rmatch (Star g a) s caps k
  = star_loop g (fun s' caps' k' => rmatch a s' caps' k') k
      (length s) s caps.
Proof. reflexivity. Qed.

Lemma slug_tail_drop_alnum (t : str) :
  slug_tail false t = true ->
  slug_tail false (drop_while is_slug_alnum t) = true.
Proof.
  induction t as [|c t IH]; [auto|].
  rewrite slug_tail_cons. cbn [drop_while].
  destruct (is_slug_alnum c) eqn:A; [exact IH|].
  intros H. rewrite slug_tail_cons, A. exact H.
Qed.

Lemma drop_while_idem (p : char -> bool) (s : str) :
  drop_while p (drop_while p s) = drop_while p s.
Proof.
  induction s as [|c t IH]; [reflexivity|]. simpl.
  destruct (p c) eqn:E; [exact IH|]. simpl. now rewrite E.
Qed.

(** The repetition [(-[a-z0-9]+)*] reaches the end of a text that is a
    sequence of hyphens, each followed by alphanumerics. *)
Lemma slug_groups_match (fuel : nat) (r : str) (caps : captures) :
  (length r <= fuel)%nat ->
  slug_tail false r = true ->
  drop_while is_slug_alnum r = r ->
  exists y,
    star_loop true
      (fun s' caps' k' =>
         rmatch (Group 1 (Seq (Chr hyphen) (Plus true (Class is_slug_alnum))))
           s' caps' k')
      at_end fuel r caps = Some y.
Proof.
  revert r caps; induction fuel as [|fuel IH]; intros r caps L T D.
  - destruct r; [|simpl in L; lia]. exists tt. reflexivity.
  - destruct r as [|c t]; [exists tt; reflexivity|].
    cbn [drop_while] in D. destruct (is_slug_alnum c) eqn:A.
    { exfalso. pose proof (drop_while_length is_slug_alnum t) as Q.
      rewrite D in Q. simpl in Q. lia. }
    rewrite slug_tail_cons, A in T.
    destruct (is_hyphen c) eqn:Hy; [|discriminate].
    cbn [negb andb] in T.
    destruct t as [|a t']; [discriminate|].
    rewrite slug_tail_cons in T.
    destruct (is_slug_alnum a) eqn:Aa;
      [|destruct (is_hyphen a); discriminate].
    cbn [star_loop].
    rewrite rmatch_Group, rmatch_Seq. unfold Chr at 1.
    rewrite rmatch_Class_cons.
    replace (char_eqb hyphen c) with true
      by (symmetry; unfold is_hyphen, char_eqb in *; now rewrite N.eqb_sym).
    unfold Plus at 1. rewrite rmatch_Seq, rmatch_Class_cons, Aa.
    rewrite rmatch_star_greedy.
    match goal with
    | |- context [longest_first ?p ?k ?c ?s] =>
        destruct (@longest_first_reaches _ p k c s tt) as [y Y]
    end.
    + pose proof (drop_while_length is_slug_alnum t') as Q.
      replace (length (drop_while is_slug_alnum t') <? length (c :: a :: t'))
        with true by (symmetry; apply Nat.ltb_lt; simpl; lia).
      destruct (IH (drop_while is_slug_alnum t')
                  ((1%nat,
                    firstn (length (c :: a :: t')
                            - length (drop_while is_slug_alnum t'))
                      (c :: a :: t')) :: caps)) as [[] Z].
      * simpl in L. lia.
      * now apply slug_tail_drop_alnum.
      * apply drop_while_idem.
      * exact Z.
    + rewrite Y. eauto.
Qed.

Lemma slug_ok_fullmatch (s : str) :
  slug_ok s = true -> re_fullmatch slug_regex s = true.
Proof.
  destruct s as [|c t]; [discriminate|]. cbn [slug_ok].
  intros H. apply andb_true_iff in H as [A T].
  unfold re_fullmatch, slug_regex.
  rewrite rmatch_Seq. unfold Plus at 1.
  rewrite rmatch_Seq, rmatch_Class_cons, A, rmatch_star_greedy.
  match goal with
  | |- context [longest_first ?p ?k ?c ?s] =>
      destruct (@longest_first_reaches _ p k c s tt) as [y Y]
  end.
  - rewrite rmatch_Star.
    destruct (@slug_groups_match
                (length (drop_while is_slug_alnum t))
                (drop_while is_slug_alnum t) []) as [[] Z].
    + lia.
    + now apply slug_tail_drop_alnum.
    + apply drop_while_idem.
    + exact Z.
  - now rewrite Y.
Qed.

Lemma slug_ok_tail (s : str) : slug_ok s = true -> slug_tail false s = true.
Proof.
  destruct s as [|c t]; [discriminate|]. cbn [slug_ok].
  intros H. apply andb_true_iff in H as [A T].
  now rewrite slug_tail_cons, A.
Qed.

Lemma slug_tail_chars (b : bool) (s : str) :
  slug_tail b s = true ->
  Forall (fun c => is_slug_alnum c = true \/ c = hyphen) s.
Proof.
  revert b; induction s as [|c t IH]; intros b; [constructor|].
  rewrite slug_tail_cons. destruct (is_slug_alnum c) eqn:A.
  - intros H. constructor; [now left|eauto].
  - destruct (is_hyphen c) eqn:Hy; [|discriminate].
    intros H. apply andb_true_iff in H as [_ H].
    constructor; [right; now apply is_hyphen_eq|eauto].
Qed.

Lemma slug_tail_no_double (b : bool) (a t : str) :
  slug_tail b (a ++ hyphen :: hyphen :: t) = false.
Proof.
  revert b; induction a as [|c a IH]; intros b.
  - simpl app. rewrite !slug_tail_cons.
    change (is_slug_alnum hyphen) with false.
    change (is_hyphen hyphen) with true. cbv iota.
    cbn [negb andb]. apply andb_false_r.
  - simpl app. rewrite slug_tail_cons.
    destruct (is_slug_alnum c); [apply IH|].
    destruct (is_hyphen c); [|reflexivity].
    rewrite IH. apply andb_false_r.
Qed.

Lemma slug_tail_no_trailing (b : bool) (a : str) :
  slug_tail b (a ++ [hyphen]) = false.
Proof.
  revert b; induction a as [|c a IH]; intros b.
  - simpl app. rewrite slug_tail_cons.
    change (is_slug_alnum hyphen) with false.
    change (is_hyphen hyphen) with true. cbv iota. simpl.
    apply andb_false_r.
  - simpl app. rewrite slug_tail_cons.
    destruct (is_slug_alnum c); [apply IH|].
    destruct (is_hyphen c); [|reflexivity].
    rewrite IH. apply andb_false_r.
Qed.

Section SlugifyClaims.

Context {U : UnicodeData}.

(** C7. Whatever the text, [slugify] (a total function: it never fails)
    returns the empty string or a string that the pattern
    [^[a-z0-9]+(-[a-z0-9]+)*$] matches: only lowercase letters, digits
    and hyphens, no two hyphens in a row, no hyphen first or last.  The
    empty text gives the empty slug. *)
Theorem slugify_charset (s : str) :
  slugify [] = []
  /\ (slugify s = [] \/ re_fullmatch slug_regex (slugify s) = true)
  /\ Forall (fun c => is_slug_alnum c = true \/ c = hyphen) (slugify s)
  /\ (forall a b, slugify s <> a ++ hyphen :: hyphen :: b)
  /\ (forall t, slugify s <> hyphen :: t)
  /\ (forall a, slugify s <> a ++ [hyphen]).
Proof.
  split; [reflexivity|].
  destruct (slugify_shape s) as [E|E].
  - rewrite E. repeat split; auto.
    + intros a b H. destruct a; discriminate.
    + discriminate.
    + intros a H. destruct a; discriminate.
  - pose proof (slug_ok_tail _ E) as T. repeat split.
    + right. now apply slug_ok_fullmatch.
    + now apply slug_tail_chars in T.
    + intros a b H. rewrite H, slug_tail_no_double in T. discriminate.
    + intros t H. rewrite H in E. discriminate.
    + intros a H. rewrite H, slug_tail_no_trailing in T. discriminate.
Qed.

End SlugifyClaims.

(** ** A slug is a fixed point *)

Lemma drop_end_none (p : char -> bool) (s : str) :
  Forall (fun c => p c = false) s -> drop_end p s = s.
Proof.
  induction 1 as [|c t Hc Ht IH]; [reflexivity|].
  cbn [drop_end]. rewrite IH, Hc. destruct t; reflexivity.
Qed.

Lemma drop_while_none (p : char -> bool) (s : str) :
  Forall (fun c => p c = false) s -> drop_while p s = s.
Proof.
  destruct 1 as [|c t Hc Ht]; [reflexivity|]. simpl. now rewrite Hc.
Qed.

Lemma slug_char_ascii (c : char) :
  is_slug_alnum c = true \/ c = hyphen -> is_ascii c = true.
Proof.
  intros [H| ->]; [|reflexivity].
  char_arith; apply N.ltb_lt; lia.
Qed.

Lemma slug_char_not_space (c : char) :
  is_slug_alnum c = true \/ c = hyphen -> ascii_isspace c = false.
Proof.
  intros [H| ->]; [|reflexivity].
  destruct (ascii_isspace c) eqn:E; [exfalso|reflexivity].
  char_arith; lia.
Qed.

Lemma slug_char_lower (c : char) :
  is_slug_alnum c = true \/ c = hyphen -> ascii_lower c = c.
Proof.
  intros [H| ->]; [|reflexivity].
  unfold ascii_lower. destruct (is_ascii_upper c) eqn:E; [exfalso|reflexivity].
  char_arith; lia.
Qed.

Lemma slug_tail_sub_runs (p : char -> bool) (b : bool) (s : str) :
  (forall c, is_slug_alnum c = true -> p c = false) ->
  p hyphen = true ->
  slug_tail b s = true ->
  sub_runs p (pystr "-") b s = s.
Proof.
  intros Pa Ph. revert b; induction s as [|c t IH]; intros b; [reflexivity|].
  rewrite slug_tail_cons. cbn [sub_runs].
  destruct (is_slug_alnum c) eqn:A.
  - intros T. rewrite (Pa _ A), (IH _ T). reflexivity.
  - destruct (is_hyphen c) eqn:Hy; [|discriminate].
    apply is_hyphen_eq in Hy. subst c. rewrite Ph.
    intros T. apply andb_true_iff in T as [B T].
    apply negb_true_iff in B. subst b.
    rewrite (IH _ T). reflexivity.
Qed.

Lemma slug_tail_drop_end (p : char -> bool) (b : bool) (s : str) :
  (forall c, is_slug_alnum c = true -> p c = false) ->
  slug_tail b s = true ->
  drop_end p s = s.
Proof.
  intros Pa. revert b; induction s as [|c t IH]; intros b; [reflexivity|].
  rewrite slug_tail_cons. cbn [drop_end].
  destruct (is_slug_alnum c) eqn:A.
  - intros T. rewrite (IH _ T), (Pa _ A). destruct t; reflexivity.
  - destruct (is_hyphen c); [|discriminate].
    intros T. apply andb_true_iff in T as [_ T].
    rewrite (IH _ T). destruct t; [discriminate|reflexivity].
Qed.

Section Idempotence.

Context {U : UnicodeData}.

Lemma slug_not_space (s : str) :
  Forall (fun c => is_slug_alnum c = true \/ c = hyphen) s ->
  Forall (fun c => is_space c = false) s.
Proof.
  intros F. eapply Forall_impl; [|exact F]. intros c H. unfold is_space.
  now rewrite (slug_char_ascii H), (slug_char_not_space H).
Qed.

Lemma py_strip_slug (s : str) :
  Forall (fun c => is_slug_alnum c = true \/ c = hyphen) s ->
  py_strip s = s.
Proof.
  intros F. apply slug_not_space in F.
  unfold py_strip. rewrite strip_by_ends.
  now rewrite (@drop_while_none is_space s F), (@drop_end_none is_space s F).
Qed.

Lemma py_lower_slug (s : str) :
  Forall (fun c => is_slug_alnum c = true \/ c = hyphen) s ->
  py_lower s = s.
Proof.
  intros F. unfold py_lower.
  assert (A : forallb is_ascii s = true).
  { apply forallb_forall. intros c H.
    apply slug_char_ascii. revert c H. now apply Forall_forall. }
  rewrite A. induction F as [|c t Hc Ht IH]; [reflexivity|].
  simpl. rewrite (slug_char_lower Hc). f_equal. apply IH.
  simpl in A. now apply andb_true_iff in A as [_ A].
Qed.

Lemma slugify_slug (s : str) : slug_ok s = true -> slugify s = s.
Proof.
  intros E. pose proof (slug_ok_tail _ E) as T.
  pose proof (slug_tail_chars _ _ T) as F.
  rewrite slugify_runs, (py_strip_slug F), (py_lower_slug F).
  rewrite (@slug_tail_sub_runs (fun c => negb (is_alnum_ascii c)) false s);
    [| intros c A; now rewrite (slug_alnum_is_alnum _ A) | reflexivity | exact T].
  rewrite (@slug_tail_sub_runs is_hyphen false s);
    [| exact slug_alnum_not_hyphen | reflexivity | exact T].
  rewrite strip_by_ends.
  destruct s as [|c t]; [discriminate|].
  cbn [slug_ok] in E. apply andb_true_iff in E as [A _].
  cbn [drop_while]. rewrite (slug_alnum_not_hyphen _ A).
  apply (slug_tail_drop_end is_hyphen false); [|exact T].
  exact slug_alnum_not_hyphen.
Qed.

(** C8. [slugify] is idempotent: a slug goes through it unchanged. *)
Theorem slugify_idempotent (s : str) :
  slugify (slugify s) = slugify s.
Proof.
  destruct (slugify_shape s) as [E|E].
  - rewrite E. reflexivity.
  - now apply slugify_slug.
Qed.

End Idempotence.

(** ** Occurrences of a text *)

(** The second piece of [value.split("||")], for a value that holds the
    separator: what stands between its first occurrence and the next. *)
Lemma py_split_second (sep v before after : str) :
  sep <> [] ->
  find_sub sep v = Some (before, after) ->
  nth 1 (py_split sep v) [] =
  match find_sub sep after with
  | Some (operand, _) => operand
  | None => after
  end.
Proof.
  intros N F. pose proof (find_sub_app _ _ F) as E.
  unfold py_split.
  destruct (length v) as [|fuel] eqn:L.
  { subst v. rewrite !length_app in L. destruct sep; [congruence|].
    simpl in L. lia. }
  cbn [split_fuel]. rewrite F. cbn [nth].
  destruct fuel as [|fuel].
  - assert (after = []) as ->.
    { subst v. rewrite !length_app in L. destruct sep; [congruence|].
      simpl in L. destruct after; [reflexivity|simpl in L; lia]. }
    assert (find_sub sep [] = None) as ->; [|reflexivity].
    destruct sep; [congruence|reflexivity].
  - cbn [split_fuel]. destruct (find_sub sep after) as [[x a]|]; reflexivity.
Qed.

(** [re.sub] with a single class and an empty replacement removes the
    characters of the class. *)
Lemma sub_fuel_class (p : char -> bool) (fuel : nat) (s : str) :
  (length s <= fuel)%nat ->
  sub_fuel (Class p) [] fuel s = filter (fun c => negb (p c)) s.
Proof.
  revert s; induction fuel as [|fuel IH]; intros s L.
  - destruct s; [reflexivity|simpl in L; lia].
  - destruct s as [|c t]; [reflexivity|].
    cbn [sub_fuel filter]. unfold match_at. rewrite rmatch_Class_cons.
    destruct (p c); cbn [negb].
    + replace (length t <? length (c :: t)) with true
        by (symmetry; apply Nat.ltb_lt; simpl; lia).
      simpl. apply IH. simpl in L. lia.
    + f_equal. apply IH. simpl in L. lia.
Qed.

Lemma re_sub_class (p : char -> bool) (s : str) :
  re_sub (Class p) [] s = filter (fun c => negb (p c)) s.
Proof. unfold re_sub. now apply sub_fuel_class. Qed.

(** ** The fallback operand *)

Section FallbackOperand.

Context {U : UnicodeData}.

Lemma clean_value_operand (v before after : str) :
  find_sub (pystr "||") v = Some (before, after) ->
  clean_value v =
  py_strip
    (strip_quotes_parens
       match find_sub (pystr "||") after with
       | Some (operand, _) => operand
       | None => after
       end).
Proof.
  intros F. unfold clean_value, str_contains. rewrite F.
  rewrite (@py_split_second (pystr "||") v before after);
    [|discriminate|exact F].
  unfold quote_or_paren. now rewrite re_sub_class.
Qed.

Lemma slug_from_props_cons (props : dict str) (key : str) (keys : list str) :
  slug_from_props props (key :: keys) =
  if is_empty (slug_from_props props [key])
  then slug_from_props props keys
  else slug_from_props props [key].
Proof.
  cbn [slug_from_props]. destruct (dict_get props key); [|reflexivity].
  destruct (is_empty (clean_value s)) eqn:E; [reflexivity|].
  now rewrite E.
Qed.

Lemma slug_from_props_one (props : dict str) (key v : str) :
  dict_get props key = Some v ->
  clean_value v <> [] ->
  slug_from_props props [key] = clean_value v.
Proof.
  intros G N. cbn [slug_from_props]. rewrite G.
  apply is_empty_false in N. now rewrite N.
Qed.

Lemma slug_from_props_one_empty (props : dict str) (key v : str) :
  dict_get props key = Some v ->
  clean_value v = [] ->
  slug_from_props props [key] = [].
Proof.
  intros G E. cbn [slug_from_props]. rewrite G, E. reflexivity.
Qed.

(** C5, as amended.  When [pageSlug] is a property of the block (or
    [currentPage], [pageSlug] giving nothing) and its raw value holds a
    [||], take what follows the first [||], up to the next one if there
    is one, without its quote characters and parentheses and trimmed of
    white space.  If this is not empty, it is the slug candidate.  If it
    is empty, the candidate comes from the next property in the priority
    order, and finally from the base name of the file: after [pageSlug]
    it is what [currentPage] gives, or the base name when that gives
    nothing, and after [currentPage] it is the base name. *)
Theorem fallback_operand (block filename key v before after : str) :
  key = pystr "pageSlug"
  \/ (key = pystr "currentPage"
      /\ slug_from_props (block_props block) [pystr "pageSlug"] = []) ->
  dict_get (block_props block) key = Some v ->
  find_sub (pystr "||") v = Some (before, after) ->
  let operand :=
    match find_sub (pystr "||") after with
    | Some (operand, _) => operand
    | None => after
    end in
  let cleaned := py_strip (strip_quotes_parens operand) in
  (cleaned <> [] -> slug_candidate block filename = cleaned)
  /\ (cleaned = [] -> key = pystr "pageSlug" ->
      slug_candidate block filename
      = if is_empty (slug_from_props (block_props block) [pystr "currentPage"])
        then fst (os_path_splitext filename)
        else slug_from_props (block_props block) [pystr "currentPage"])
  /\ (cleaned = [] -> key = pystr "currentPage" ->
      slug_candidate block filename = fst (os_path_splitext filename)).
Proof.
  intros K G F operand cleaned.
  pose proof (clean_value_operand _ F) as C. fold operand in C.
  fold cleaned in C. rewrite <- C. clear C.
  unfold slug_candidate, slug_keys.
  split; [|split].
  - intros N. pose proof (slug_from_props_one _ _ G N) as One.
    apply is_empty_false in N.
    destruct K as [->|[-> P]].
    + rewrite slug_from_props_cons, One, N. now rewrite N.
    + rewrite slug_from_props_cons, P. cbn [is_empty]. rewrite One.
      now rewrite N.
  - intros E ->. clear K.
    rewrite slug_from_props_cons, (slug_from_props_one_empty _ _ G E).
    reflexivity.
  - intros E ->.
    destruct K as [K|[_ P]]; [discriminate K|].
    rewrite slug_from_props_cons, P. cbn [is_empty].
    rewrite (slug_from_props_one_empty _ _ G E). reflexivity.
Qed.

(** The scenario of the specification. *)
Lemma fallback_scenario (filename : str) :
  slug_candidate (pystr " pageSlug: (someVar || 'fallback-slug') ") filename
  = pystr "fallback-slug".
Proof. vm_compute. reflexivity. Qed.

End FallbackOperand.

Lemma fallback_operand_sample :
  slug_candidate (U := ascii_only)
    (pystr " pageSlug: (someVar || 'fallback-slug') ") (pystr "index.html")
  = pystr "fallback-slug"
  /\ slug_candidate (U := ascii_only)
       (pystr " pageSlug: (someVar || ''), currentPage: 'home' ")
       (pystr "index.html")
     = pystr "home"
  /\ slug_candidate (U := ascii_only)
       (pystr " currentPage: (someVar || '') ") (pystr "index.html")
     = pystr "index".
Proof.
  split; [|split].
  - apply (@fallback_operand ascii_only
             (pystr " pageSlug: (someVar || 'fallback-slug') ")
             (pystr "index.html") (pystr "pageSlug")
             (pystr "(someVar || 'fallback-slug') ")
             (pystr "(someVar ") (pystr " 'fallback-slug') ")).
    + left. reflexivity.
    + vm_compute. reflexivity.
    + vm_compute. reflexivity.
    + vm_compute. discriminate.
  - apply (@fallback_operand ascii_only
             (pystr " pageSlug: (someVar || ''), currentPage: 'home' ")
             (pystr "index.html") (pystr "pageSlug")
             (pystr "(someVar || '')")
             (pystr "(someVar ") (pystr " '')")).
    + left. reflexivity.
    + vm_compute. reflexivity.
    + vm_compute. reflexivity.
    + vm_compute. reflexivity.
    + reflexivity.
  - apply (@fallback_operand ascii_only
             (pystr " currentPage: (someVar || '') ")
             (pystr "index.html") (pystr "currentPage")
             (pystr "(someVar || '') ")
             (pystr "(someVar ") (pystr " '') ")).
    + right. split; vm_compute; reflexivity.
    + vm_compute. reflexivity.
    + vm_compute. reflexivity.
    + vm_compute. reflexivity.
    + reflexivity.
Defined.

(** C5, as the claim states it, fails where the operand is empty once it
    is cleaned: the value of [pageSlug] holds a [||] whose right-hand
    operand is [''], and the slug candidate is the base name of the file,
    not the empty string. *)
Lemma fallback_operand_empty :
  dict_get (block_props (U := ascii_only) (pystr " pageSlug: (someVar || '') "))
    (pystr "pageSlug")
  = Some (pystr "(someVar || '') ")
  /\ find_sub (pystr "||") (pystr "(someVar || '') ")
     = Some (pystr "(someVar ", pystr " '') ")
  /\ str_contains (pystr "||") (pystr " '') ") = false
  /\ py_strip (U := ascii_only) (strip_quotes_parens (pystr " '') ")) = []
  /\ slug_candidate (U := ascii_only)
       (pystr " pageSlug: (someVar || '') ") (pystr "home.html")
     = pystr "home"
  /\ slug_candidate (U := ascii_only)
       (pystr " pageSlug: (someVar || '') ") (pystr "home.html")
     <> py_strip (U := ascii_only) (strip_quotes_parens (pystr " '') ")).
Proof.
  repeat split; try (vm_compute; reflexivity).
  vm_compute. discriminate.
Qed.

(** ** The include call *)






Section ReaderSteps.

Variable A : Type.
Implicit Types (k : str -> captures -> option A) (s : str) (r : regex).

Lemma rmatch_lit_then (w : str) r s caps k :
  rmatch (Seq (Lit w) r) s caps k =
  match strip_prefix w s with
  | Some rest => rmatch r rest caps k
  | None => None
  end.
Proof. now rewrite rmatch_Seq, rmatch_Lit. Qed.

Lemma rmatch_alt_then (p q : char -> bool) r s caps k :
  rmatch (Seq (Alt (Class p) (Class q)) r) s caps k =
  match expect (fun c => p c || q c) s with
  | Some rest => rmatch r rest caps k
  | None => None
  end.
Proof.
  rewrite rmatch_Seq, rmatch_Alt_class. destruct s as [|c t]; [reflexivity|].
  simpl expect. destruct (p c || q c); reflexivity.
Qed.

Lemma rmatch_skip_then (p q : char -> bool) r s caps k :
  (forall c, p c = true -> q c = false) ->
  rmatch (Seq (Star true (Class p)) (Seq (Class q) r)) s caps k =
  match skip_then p q s with
  | Some rest => rmatch r rest caps k
  | None => None
  end.
Proof.
  intros D. rewrite rmatch_Seq, rmatch_star_greedy.
  rewrite longest_first_refusing.
  - rewrite rmatch_Seq. unfold skip_then.
    destruct (drop_while p s) as [|c t]; [reflexivity|].
    rewrite rmatch_Class_cons. simpl expect. destruct (q c); reflexivity.
  - intros c t Pc. rewrite rmatch_Seq, rmatch_Class_cons.
    now rewrite (D c Pc).
Qed.

End ReaderSteps.

Lemma shortest_first_ext {A : Type} (p : char -> bool)
    (k1 k2 : str -> captures -> option A) (caps : captures) (s : str) :
  (forall s' caps', k1 s' caps' = k2 s' caps') ->
  shortest_first p k1 caps s = shortest_first p k2 caps s.
Proof.
  intros E. induction s as [|c t IH]; cbn [shortest_first]; rewrite E.
  - reflexivity.
  - now rewrite IH.
Qed.

(** The lazy group before a literal stops at the first occurrence of the
    literal. *)
Lemma shortest_first_find (p : char -> bool) (pat whole : str)
    (caps : captures) (pre s : str) :
  (forall c, p c = true) ->
  whole = pre ++ s ->
  shortest_first p
    (fun s' caps' =>
       match strip_prefix pat s' with
       | Some rest =>
           Some (rest, (1%nat, firstn (length whole - length s') whole) :: caps')
       | None => None
       end) caps s
  = match find_sub pat s with
    | Some (before, after) => Some (after, (1%nat, pre ++ before) :: caps)
    | None => None
    end.
Proof.
  intros P. revert pre; induction s as [|c t IH]; intros pre E.
  - cbn [shortest_first find_sub].
    destruct (strip_prefix pat []) as [rest|]; [|reflexivity].
    subst whole. rewrite !app_nil_r, Nat.sub_0_r, firstn_all. reflexivity.
  - cbn [shortest_first find_sub].
    destruct (strip_prefix pat (c :: t)) as [rest|].
    + subst whole. rewrite length_app.
      replace (length pre + length (c :: t) - length (c :: t))%nat
        with (length pre + 0)%nat by lia.
      rewrite firstn_app_2. simpl firstn. reflexivity.
    + rewrite P. rewrite (IH (pre ++ [c])).
      * destruct (find_sub pat t) as [[b a]|]; [|reflexivity].
        now rewrite <- app_assoc.
      * now rewrite <- app_assoc.
Qed.

Lemma rmatch_lazy_block (p : char -> bool) (pat s : str) :
  (forall c, p c = true) ->
  rmatch (Seq (Group 1 (Star false (Class p))) (Seq (Lit pat) Eps)) s []
    (fun rest caps => Some (rest, caps))
  = match find_sub pat s with
    | Some (before, after) => Some (after, [(1%nat, before)])
    | None => None
    end.
Proof.
  intros P. rewrite rmatch_Seq, rmatch_Group, rmatch_star_lazy.
  etransitivity; [|exact (@shortest_first_find p pat s [] [] s P eq_refl)].
  apply shortest_first_ext. intros s' caps'.
  now rewrite rmatch_lit_then.
Qed.

Section IncludeCall.

Context {U : UnicodeData}.

Lemma space_not (c x : char) :
  is_space x = false -> is_space c = true -> char_eqb x c = false.
Proof.
  intros Nx Sc. destruct (char_eqb x c) eqn:E; [|reflexivity].
  unfold char_eqb in E. apply N.eqb_eq in E. subst. congruence.
Qed.

Lemma include_match_at (s : str) :
  match_at include_pattern s = include_at s.
Proof.
  unfold match_at, include_pattern, include_at, include_head, Cat, Chr.
  cbn [fold_right]. unfold and_then.
  rewrite rmatch_lit_then.
  destruct (strip_prefix (pystr "include(") s) as [s1|]; [|reflexivity].
  rewrite rmatch_alt_then. fold is_quote.
  change (fun c : char => is_quote c) with is_quote.
  destruct (expect is_quote s1) as [s2|]; [|reflexivity].
  rewrite rmatch_lit_then.
  destruct (strip_prefix (pystr "layout") s2) as [s3|]; [|reflexivity].
  rewrite rmatch_alt_then. fold is_quote.
  change (fun c : char => is_quote c) with is_quote.
  destruct (expect is_quote s3) as [s4|]; [|reflexivity].
  rewrite rmatch_skip_then by (intros c; now apply space_not).
  destruct (skip_then is_space (char_eqb (chr ",")) s4) as [s5|];
    [|reflexivity].
  rewrite rmatch_skip_then by (intros c; now apply space_not).
  destruct (skip_then is_space (char_eqb (chr "{")) s5) as [s6|];
    [|reflexivity].
  unfold space_or_not. apply rmatch_lazy_block.
  intros c. apply orb_negb_r.
Qed.


End IncludeCall.

(** ** What follows a match does not matter *)

Lemma strip_prefix_long (pat x a : str) :
  (length pat <= length x)%nat ->
  strip_prefix pat (x ++ a) =
  match strip_prefix pat x with
  | Some r => Some (r ++ a)
  | None => None
  end.
Proof.
  revert x; induction pat as [|c pat IH]; intros x L; [reflexivity|].
  destruct x as [|y x]; [simpl in L; lia|].
  simpl. destruct (char_eqb c y); [|reflexivity].
  apply IH. simpl in L. lia.
Qed.



Lemma search_from_here (r : regex) (pos : nat) (s rest : str)
    (caps : captures) :
  match_at r s = Some (rest, caps) ->
  search_from r pos s =
  Some {| m_start := pos;
          m_end := pos + (length s - length rest);
          m_groups := caps |}.
Proof. intros H. destruct s; simpl; now rewrite H. Qed.

Lemma search_from_next (r : regex) (pos : nat) (c : char) (t : str) :
  match_at r (c :: t) = None ->
  search_from r pos (c :: t) = search_from r (S pos) t.
Proof. intros H. simpl. now rewrite H. Qed.


Section FirstInvocation.

Context {U : UnicodeData}.





End FirstInvocation.


(** The record of that page is the one of its first invocation. *)
Lemma two_calls_record :
  scan_file (U := ascii_only)
    (pystr "/site/index.html") (pystr "index.html") two_calls
  = [(pystr "/site/index.html", pystr "first", false)].
Proof. vm_compute. reflexivity. Qed.

(** ** The scenarios of the specification, run *)

(** The sample project: the page with an entry in the table and the page
    with an inline description are covered, the page [contact] is
    missing; the run reports it and exits with status 1. *)
Example sample_run :
  main (U := ascii_only) sample_project =
  ([EvOpen (pystr "/site/layout.html");
    EvOpen (pystr "/site/layout.html");
    EvOpen (pystr "/site/about-us.html");
    EvOpen (pystr "/site/contact.html");
    EvOpen (pystr "/site/team.html");
    EvStdout {| total_pages := 2;
                missing_descriptions :=
                  [(pystr "/site/contact.html", pystr "contact")] |};
    EvStderr
      (pystr "Missing description for slug 'contact' from /site/contact.html")],
   Exit 1).
Proof. vm_compute. reflexivity. Qed.

(** The alias scenario: a page whose slug is [casestudy] is covered
    through the entry [case-study]. *)
Example sample_alias :
  dict_get sample_lookup (pystr "casestudy") = Some (pystr "A case study")
  /\ main_loop sample_lookup
       [(pystr "/site/casestudy.html",
         slugify (U := ascii_only) (pystr "casestudy"), false)]
     = ([], [(pystr "/site/casestudy.html", pystr "casestudy")]).
Proof. split; vm_compute; reflexivity. Qed.

(** [slugify] on a title. *)
Example sample_slug :
  slugify (U := ascii_only) (pystr "  Hello, World!! --foo__Bar--  ")
  = pystr "hello-world-foo-bar".
Proof. vm_compute. reflexivity. Qed.

(** * Further properties of the code *)

(** ** The run as a whole *)

Lemma filter_nil_iff {A : Type} (f : A -> bool) (l : list A) :
  filter f l = [] <-> forall x, In x l -> f x = false.
Proof.
  induction l as [|a l IH]; simpl.
  - split; [intros _ x []|reflexivity].
  - destruct (f a) eqn:E.
    + split; [discriminate|]. intros H.
      rewrite (H a (or_introl eq_refl)) in E. discriminate.
    + rewrite IH. split.
      * intros H x [<-|I]; auto.
      * intros H x I. apply H. now right.
Qed.

Lemma main_loop_permutation (lookup : dict str) (a b : list page) :
  Permutation a b ->
  Permutation (fst (main_loop lookup a)) (fst (main_loop lookup b))
  /\ Permutation (snd (main_loop lookup a)) (snd (main_loop lookup b)).
Proof.
  intros P. rewrite !main_loop_filter. cbn [fst snd].
  induction P as [|x l l' P [IH1 IH2]|x y l|l l' l'' P1 [IH1 IH2] P2 [IH3 IH4]].
  - split; constructor.
  - cbn [filter].
    destruct (is_missing lookup x), (is_covered lookup x); cbn [map];
      split; auto.
  - cbn [filter].
    destruct (is_missing lookup x), (is_missing lookup y),
      (is_covered lookup x), (is_covered lookup y); cbn [map];
      split; try apply Permutation_refl; apply perm_swap.
  - split; eapply Permutation_trans; eauto.
Qed.

Section WholeRun.

Context {U : UnicodeData}.


(** The outcome of the run, the count it reports and the pages it reports
    as missing do not depend on the order in which the walk yields the
    HTML files; only the order of the missing pages follows it. *)
Theorem main_order_independent (p q : project) :
  layout_text p = layout_text q ->
  Permutation (html_files (root_walk p)) (html_files (root_walk q)) ->
  snd (main p) = snd (main q)
  /\ forall r, In (EvStdout r) (fst (main p)) ->
       exists r', In (EvStdout r') (fst (main q))
                  /\ total_pages r' = total_pages r
                  /\ Permutation (missing_descriptions r)
                       (missing_descriptions r').
Proof.
  intros Lt Pf.
  assert (Pp : Permutation (iter_layout_pages (root_walk p))
                 (iter_layout_pages (root_walk q))).
  { unfold iter_layout_pages. now apply Permutation_flat_map. }
  unfold main. rewrite <- Lt.
  destruct (read_layout_lookup (layout_text p)) as [e|lookup].
  - split; [reflexivity|]. intros r [H|[]]. discriminate.
  - destruct (main_loop_permutation lookup Pp) as [Pm Pc].
    destruct (main_loop lookup (iter_layout_pages (root_walk p)))
      as [m1 c1].
    destruct (main_loop lookup (iter_layout_pages (root_walk q)))
      as [m2 c2].
    cbn [fst snd] in *. split.
    + destruct m1, m2; try reflexivity.
      * apply Permutation_nil in Pm. discriminate.
      * apply Permutation_sym, Permutation_nil in Pm. discriminate.
    + intros r [H|H]; [discriminate|].
      apply in_app_or in H as [H|[H|H]].
      * apply in_map_iff in H as [? [? _]]. discriminate.
      * exists {| total_pages := Z.of_nat (length c2);
                  missing_descriptions := m2 |}.
        inversion H; subst r. cbn [total_pages missing_descriptions].
        split; [|split; [|exact Pm]].
        -- right. apply in_or_app. right. now left.
        -- now rewrite (Permutation_length Pc).
      * destruct (is_empty m1); [destruct H|].
        apply in_map_iff in H as [? [? _]]. discriminate.
Qed.

End WholeRun.


Lemma main_order_independent_sample :
  snd (main (U := ascii_only) sample_project)
  = snd (main (U := ascii_only) sample_project_reordered)
  /\ forall r,
       In (EvStdout r) (fst (main (U := ascii_only) sample_project)) ->
       exists r',
         In (EvStdout r')
           (fst (main (U := ascii_only) sample_project_reordered))
         /\ total_pages r' = total_pages r
         /\ Permutation (missing_descriptions r) (missing_descriptions r').
Proof.
  apply (@main_order_independent ascii_only
           sample_project sample_project_reordered).
  - reflexivity.
  - vm_compute. apply perm_swap.
Defined.

(** ** Dictionaries built from pairs *)

Lemma fold_set_get_other {V : Type} (l : list (str * V)) (d : dict V)
    (k : str) :
  ~ In k (map fst l) ->
  dict_get (fold_left (fun d kv => dict_set d (fst kv) (snd kv)) l d) k
  = dict_get d k.
Proof.
  revert d; induction l as [|[k' v'] l IH]; intros d N; [reflexivity|].
  cbn [fold_left fst snd]. rewrite IH.
  - apply dict_get_set_other. intros ->. apply N. now left.
  - intros I. apply N. now right.
Qed.

(** [dict(pairs)], as the loader and the scanner use it on the result of
    [re.findall]: of the pairs that share a key, the value of the last
    one is kept. *)
Theorem dict_of_pairs_last_wins (V : Type) (before after : list (str * V))
    (k : str) (v : V) :
  ~ In k (map fst after) ->
  dict_get (dict_of_pairs (before ++ (k, v) :: after)) k = Some v.
Proof.
  intros N. unfold dict_of_pairs. rewrite fold_left_app. cbn [fold_left fst snd].
  rewrite fold_set_get_other by exact N. apply dict_get_set_same.
Qed.

Lemma dict_of_pairs_last_wins_sample :
  dict_get
    (dict_of_pairs
       ([(pystr "home", pystr "first")]
          ++ (pystr "home", pystr "second")
          :: [(pystr "about", pystr "third")]))
    (pystr "home")
  = Some (pystr "second").
Proof.
  apply dict_of_pairs_last_wins.
  vm_compute. intros [H|[]]. discriminate.
Defined.

(** ** The slug taken from the name of the file *)

Lemma rfind_char_none (c : char) (s : str) :
  ~ In c s -> rfind_char c s = None.
Proof.
  induction s as [|x t IH]; [reflexivity|]. intros N. cbn [rfind_char].
  rewrite IH by (intros I; apply N; now right).
  destruct (char_eqb x c) eqn:E; [|reflexivity].
  unfold char_eqb in E. apply N.eqb_eq in E. exfalso. apply N. now left.
Qed.

Lemma rfind_char_last (c : char) (a b : str) :
  ~ In c b -> rfind_char c (a ++ c :: b) = Some (length a).
Proof.
  intros N. induction a as [|x a IH].
  - cbn [app rfind_char length]. rewrite rfind_char_none by exact N.
    unfold char_eqb. now rewrite N.eqb_refl.
  - cbn [app rfind_char length]. now rewrite IH.
Qed.

Lemma splitext_html (stem : str) :
  ~ In (chr "/") stem ->
  os_path_splitext (stem ++ pystr ".html") =
  if forallb (char_eqb (chr ".")) stem
  then (stem ++ pystr ".html", [])
  else (stem, pystr ".html").
Proof.
  intros N. unfold os_path_splitext.
  change (pystr ".html") with (chr "." :: pystr "html").
  rewrite rfind_char_last
    by (vm_compute; intuition discriminate).
  rewrite rfind_char_none.
  - cbn [Nat.leb andb skipn]. rewrite Nat.sub_0_r.
    rewrite firstn_exact, skipn_exact.
    destruct (forallb (char_eqb (chr ".")) stem); reflexivity.
  - intros I. apply in_app_or in I as [I|I]; [contradiction|].
    vm_compute in I. intuition discriminate.
Qed.

Section FilenameSlug.

Context {U : UnicodeData}.

(** When neither [pageSlug] nor [currentPage] gives a value that is not
    empty, the slug candidate is the name of the file without its
    extension; a name that is only dots before [.html] (the file
    [.html] itself among them) has no extension for
    [os.path.splitext] and is taken whole. *)
Theorem slug_candidate_from_filename (block stem : str) :
  slug_from_props (block_props block) slug_keys = [] ->
  ~ In (chr "/") stem ->
  slug_candidate block (stem ++ pystr ".html") =
  if forallb (char_eqb (chr ".")) stem
  then stem ++ pystr ".html"
  else stem.
Proof.
  intros E N. unfold slug_candidate. rewrite E. cbn [is_empty].
  rewrite splitext_html by exact N.
  destruct (forallb (char_eqb (chr ".")) stem); reflexivity.
Qed.

End FilenameSlug.

Lemma slug_candidate_from_filename_sample :
  slug_candidate (U := ascii_only) (pystr " pageTitle: 'Contact us' ")
    (pystr "contact" ++ pystr ".html")
  = if forallb (char_eqb (chr ".")) (pystr "contact")
    then pystr "contact" ++ pystr ".html"
    else pystr "contact".
Proof.
  apply (@slug_candidate_from_filename ascii_only).
  - vm_compute. reflexivity.
  - vm_compute. intuition discriminate.
Defined.

(** ** What slugify keeps *)

Lemma filter_sub_runs (q p : char -> bool) (repl : str) (b : bool) (s : str) :
  (forall c, q c = true -> p c = false) ->
  filter q repl = [] ->
  filter q (sub_runs p repl b s) = filter q s.
Proof.
  intros D R. revert b; induction s as [|c t IH]; intros b; [reflexivity|].
  cbn [sub_runs filter]. destruct (q c) eqn:Q.
  - rewrite (D c Q). cbn [filter]. now rewrite Q, IH.
  - destruct (p c).
    + destruct b; [apply IH|]. now rewrite filter_app, R, IH.
    + cbn [filter]. now rewrite Q, IH.
Qed.

Lemma filter_drop_while (q p : char -> bool) (s : str) :
  (forall c, q c = true -> p c = false) ->
  filter q (drop_while p s) = filter q s.
Proof.
  intros D. induction s as [|c t IH]; [reflexivity|].
  cbn [drop_while]. destruct (p c) eqn:P; [|reflexivity].
  cbn [filter]. destruct (q c) eqn:Q; [|exact IH].
  rewrite (D c Q) in P. discriminate.
Qed.

Lemma filter_drop_end (q p : char -> bool) (s : str) :
  (forall c, q c = true -> p c = false) ->
  filter q (drop_end p s) = filter q s.
Proof.
  intros D. induction s as [|c t IH]; [reflexivity|].
  cbn [drop_end filter]. destruct (drop_end p t) as [|x r] eqn:E.
  - rewrite <- IH. destruct (p c) eqn:P.
    + destruct (q c) eqn:Q; [|reflexivity].
      rewrite (D c Q) in P. discriminate.
    + cbn [filter]. destruct (q c); reflexivity.
  - cbn [filter]. rewrite <- IH. reflexivity.
Qed.

Section SlugifyKeeps.

Context {U : UnicodeData}.

(** [slugify] only rewrites what separates the letters and digits: the
    letters and digits of its result are those of the trimmed, lowered
    text, in their order.  So the slug is empty exactly when that text
    has no letter or digit of ASCII. *)
Theorem slugify_keeps_alnum (s : str) :
  filter is_alnum_ascii (slugify s)
  = filter is_alnum_ascii (py_lower (py_strip s))
  /\ (slugify s = [] <->
      forall c, In c (py_lower (py_strip s)) -> is_alnum_ascii c = false).
Proof.
  assert (K : filter is_alnum_ascii (slugify s)
              = filter is_alnum_ascii (py_lower (py_strip s))).
  { assert (H : forall c, is_alnum_ascii c = true -> is_hyphen c = false).
    { intros c A. destruct (is_hyphen c) eqn:E; [|reflexivity].
      apply is_hyphen_eq in E. subst c. discriminate. }
    rewrite slugify_runs, strip_by_ends.
    rewrite filter_drop_end by exact H.
    rewrite filter_drop_while by exact H.
    rewrite (@filter_sub_runs is_alnum_ascii is_hyphen) by (exact H || reflexivity).
    apply filter_sub_runs; [|reflexivity].
    intros c A. now rewrite A. }
  split; [exact K|]. rewrite <- filter_nil_iff, <- K. split.
  - intros ->. reflexivity.
  - intros F. destruct (slugify_shape s) as [E|E]; [exact E|].
    destruct (slugify s) as [|c t]; [reflexivity|].
    cbn [slug_ok] in E. apply andb_true_iff in E as [A _].
    cbn [filter] in F. rewrite (slug_alnum_is_alnum _ A) in F. discriminate.
Qed.

End SlugifyKeeps.

(** ** Where the loader reads the table *)

Lemma find_sub_after_prefix (x a b : str) :
  ~ In close_brace a ->
  find_sub (close_brace :: x) b = None ->
  find_sub (close_brace :: x) (a ++ b) = None.
Proof.
  intros N F. induction a as [|c a IH]; [exact F|].
  cbn [app find_sub strip_prefix].
  replace (char_eqb close_brace c) with false.
  - rewrite IH; [reflexivity|]. intros I. apply N. now right.
  - symmetry. unfold char_eqb. apply N.eqb_neq. intros E. apply N. now left.
Qed.

Section LoaderBlock.

Context {U : UnicodeData}.

Lemma entries_match_at (s : str) :
  match_at entries_pattern s =
  match strip_prefix entries_marker s with
  | Some body =>
      match find_sub (pystr "};") body with
      | Some (block, rest) => Some (rest, [(1%nat, block)])
      | None => None
      end
  | None => None
  end.
Proof.
  unfold match_at, entries_pattern, Cat. cbn [fold_right].
  rewrite rmatch_lit_then.
  destruct (strip_prefix entries_marker s) as [body|]; [|reflexivity].
  unfold space_or_not. apply rmatch_lazy_block. intros c. apply orb_negb_r.
Qed.

Lemma entries_search_no_close (s : str) (pos : nat) :
  find_sub (pystr "};") s = None ->
  search_from entries_pattern pos s = None.
Proof.
  revert pos; induction s as [|c t IH]; intros pos F.
  - cbn [search_from]. rewrite entries_match_at. reflexivity.
  - assert (M : match_at entries_pattern (c :: t) = None).
    { rewrite entries_match_at.
      destruct (strip_prefix entries_marker (c :: t)) as [body|] eqn:P;
        [|reflexivity].
      destruct (find_sub (pystr "};") body) as [[block rest]|] eqn:B;
        [|reflexivity].
      apply strip_prefix_app in P. apply find_sub_app in B.
      exfalso. apply (@find_sub_some (pystr "};") (entries_marker ++ block) rest).
      rewrite <- F. f_equal. rewrite P, B. now rewrite <- app_assoc. }
    rewrite (search_from_next _ pos _ _ M). apply IH.
    now apply find_sub_none_inv in F as [_ F].
Qed.

Lemma entries_search_block (s : str) (pos : nat) :
  option_map (fun m => m_group m 1) (search_from entries_pattern pos s) =
  match find_sub entries_marker s with
  | Some (_, body) =>
      match find_sub (pystr "};") body with
      | Some (block, _) => Some block
      | None => None
      end
  | None => None
  end.
Proof.
  revert pos; induction s as [|c t IH]; intros pos.
  - cbn [search_from]. rewrite entries_match_at. reflexivity.
  - pose proof (entries_match_at (c :: t)) as M.
    destruct (strip_prefix entries_marker (c :: t)) as [body|] eqn:P.
    + rewrite (find_sub_here _ _ P).
      destruct (find_sub (pystr "};") body) as [[block rest]|] eqn:B.
      * rewrite (search_from_here _ pos _ M). reflexivity.
      * rewrite (search_from_next _ pos _ _ M).
        rewrite entries_search_no_close; [reflexivity|].
        apply strip_prefix_app in P.
        change entries_marker
          with (chr "v" :: pystr "ar __layoutPageDescriptionEntries = {") in P.
        assert (Et : t = pystr "ar __layoutPageDescriptionEntries = {" ++ body)
          by (change (c :: t = chr "v" :: (pystr "ar __layoutPageDescriptionEntries = {" ++ body)) in P; congruence).
        rewrite Et.
        apply (@find_sub_after_prefix (pystr ";")); [|exact B].
        vm_compute. intuition discriminate.
    + rewrite (search_from_next _ pos _ _ M), IH.
      cbn [find_sub]. rewrite P.
      destruct (find_sub entries_marker t) as [[b a]|]; reflexivity.
Qed.

(** The loader reads the table out of the text that stands between the
    first occurrence of [var __layoutPageDescriptionEntries = {] and the
    first [};] after it.  It raises its [RuntimeError] exactly when the
    marker is absent or no [};] follows its first occurrence. *)
Theorem loader_reads_first_block (text : str) :
  read_layout_lookup text =
  match find_sub (pystr "var __layoutPageDescriptionEntries = {") text with
  | Some (_, body) =>
      match find_sub (pystr "};") body with
      | Some (block, _) =>
          inr (build_lookup
                 (dict_of_pairs (re_findall2 entry_pattern block)))
      | None =>
          inl (RuntimeError
                 (pystr "Could not locate __layoutPageDescriptionEntries in layout.html"))
      end
  | None =>
      inl (RuntimeError
             (pystr "Could not locate __layoutPageDescriptionEntries in layout.html"))
  end.
Proof.
  pose proof (entries_search_block text 0) as B.
  unfold read_layout_lookup, layout_entries, re_search.
  change (pystr "var __layoutPageDescriptionEntries = {") with entries_marker.
  destruct (search_from entries_pattern 0 text) as [m|];
    destruct (find_sub entries_marker text) as [[before body]|];
    cbn [option_map] in B; try discriminate; try reflexivity.
  - destruct (find_sub (pystr "};") body) as [[block rest]|];
      [|discriminate].
    now inversion B.
  - destruct (find_sub (pystr "};") body) as [[block rest]|];
      [discriminate|reflexivity].
Qed.

End LoaderBlock.

(** ** The entries that the loader keeps *)

Section KeptEntries.

Context {U : UnicodeData}.

(** No entry of the table is dropped: a key and a description that the
    pattern of an entry matched are never empty and hold no quote, so
    the guard [if not description] never fires, and every key of the
    parsed entries is a key of the returned lookup, with its own
    description. *)
Theorem loader_keeps_every_entry (text : str) (lookup : dict str) :
  read_layout_lookup text = inr lookup ->
  exists entries : dict str,
    layout_entries text = Some entries
    /\ forall key description,
         dict_get entries key = Some description ->
         key <> [] /\ ~ In squote key
         /\ description <> [] /\ ~ In squote description
         /\ dict_get lookup key = Some description.
Proof.
  unfold read_layout_lookup. intros H.
  destruct (layout_entries text) as [entries|] eqn:L; [|discriminate].
  inversion H; subst lookup. clear H.
  exists entries. split; [reflexivity|]. intros key description G.
  edestruct layout_entries_wellformed as (Nk & Qk & Nd & Qd);
    [exact L|exact G|].
  repeat split; auto.
  assert (N : NoDup (dict_keys entries)).
  { unfold layout_entries in L.
    destruct (re_search entries_pattern text); [|discriminate].
    inversion L. apply dict_of_pairs_NoDup. }
  destruct (@build_lookup_inv entries N) as [E _ _].
  apply E; [|exact Nd]. now apply dict_get_In.
Qed.

(** The forgiving match: for every key of the table, the key without its
    hyphens (when something is left of it) is a key of the returned
    lookup as well, so that a page whose slug lacks the hyphens is
    covered. *)
Theorem loader_knows_collapsed_keys (text : str) (lookup : dict str)
    (key : str) :
  read_layout_lookup text = inr lookup ->
  dict_mem key lookup = true ->
  py_replace (pystr "-") [] key <> [] ->
  dict_mem (py_replace (pystr "-") [] key) lookup = true.
Proof.
  unfold read_layout_lookup. intros H.
  destruct (layout_entries text) as [entries|] eqn:L; [|discriminate].
  inversion H; subst lookup. clear H.
  assert (N : NoDup (dict_keys entries)).
  { unfold layout_entries in L.
    destruct (re_search entries_pattern text); [|discriminate].
    inversion L. apply dict_of_pairs_NoDup. }
  destruct (@build_lookup_inv entries N) as [E O S].
  assert (X : forall k, dict_mem k entries = true ->
                dict_mem k (build_lookup entries) = true).
  { intros k M. apply dict_mem_get in M as [d G].
    edestruct layout_entries_wellformed as (_ & _ & Nd & _);
      [exact L|exact G|].
    apply dict_mem_get. exists d. apply E; [|exact Nd].
    now apply dict_get_In. }
  rewrite replace_hyphens. intros M C.
  apply dict_mem_get in M as [d G].
  destruct (O _ _ G) as [[I Nd]|(Ne & l1 & k0 & l2 & El & Nd & Ea & _)].
  - destruct (S _ _ I Nd) as [Z|[Z|[Z|Z]]]; cbv zeta in Z.
    + contradiction.
    + rewrite Z. apply dict_mem_get. eauto.
    + now apply X.
    + exact Z.
  - (* the key is itself an alias: it holds no hyphen *)
    subst key. rewrite filter_filter_same. apply dict_mem_get. eauto.
Qed.

End KeptEntries.

Section ParsedProps.

Context {U : UnicodeData}.

(** The properties read out of a block: a key is a run of word
    characters and a value runs at most to the next comma or line feed;
    neither is ever empty. *)
Theorem block_props_wellformed (block key value : str) :
  dict_get (block_props block) key = Some value ->
  key <> []
  /\ Forall (fun c => is_word c = true) key
  /\ value <> []
  /\ ~ In (chr ",") value
  /\ ~ In 10%N value.
Proof.
  unfold block_props, re_findall2. intros G.
  apply dict_of_pairs_In in G.
  apply in_map_iff in G as (caps & E & I).
  apply finditer_in in I as (u & rest & M).
  apply prop_match_inv in M as (k & v & Nk & Fk & Nv & Cv & Lv & ->).
  cbn in E. inversion E; subst. auto.
Qed.

End ParsedProps.

Lemma loader_keeps_every_entry_sample :
  exists entries : dict str,
    layout_entries (U := ascii_only) sample_layout = Some entries
    /\ forall key description,
         dict_get entries key = Some description ->
         key <> [] /\ ~ In squote key
         /\ description <> [] /\ ~ In squote description
         /\ dict_get sample_lookup key = Some description.
Proof.
  apply (@loader_keeps_every_entry ascii_only sample_layout sample_lookup).
  vm_compute. reflexivity.
Defined.

Lemma loader_knows_collapsed_keys_sample :
  dict_mem (py_replace (pystr "-") [] (pystr "case-study")) sample_lookup
  = true.
Proof.
  apply (@loader_knows_collapsed_keys ascii_only sample_layout).
  - vm_compute. reflexivity.
  - vm_compute. reflexivity.
  - vm_compute. discriminate.
Defined.

Lemma block_props_wellformed_sample :
  pystr "pageSlug" <> []
  /\ Forall (fun c => is_word (U := ascii_only) c = true) (pystr "pageSlug")
  /\ pystr "'about-us' " <> []
  /\ ~ In (chr ",") (pystr "'about-us' ")
  /\ ~ In 10%N (pystr "'about-us' ").
Proof.
  apply (@block_props_wellformed ascii_only
           (pystr " pageSlug: 'about-us' ")).
  vm_compute. reflexivity.
Defined.

(** ** Reading a table back *)

Section GroupsForward.

Variable A : Type.
Implicit Types (k : str -> captures -> option A) (s : str) (r : regex).

Lemma longest_first_run_end (p : char -> bool) k caps (pre suf : str) (x : A) :
  Forall (fun c => p c = true) pre ->
  stops p suf ->
  k suf caps = Some x ->
  longest_first p k caps (pre ++ suf) = Some x.
Proof.
  intros F S K. induction F as [|c pre Pc F IH].
  - destruct suf as [|c t]; [exact K|].
    cbn [app longest_first]. cbn [stops] in S. now rewrite S.
  - cbn [app longest_first]. now rewrite Pc, IH.
Qed.

Lemma rmatch_group_plus_ok (n : nat) (p : char -> bool) r (g suf : str)
    caps k (x : A) :
  g <> [] ->
  Forall (fun c => p c = true) g ->
  stops p suf ->
  rmatch r suf ((n, g) :: caps) k = Some x ->
  rmatch (Seq (Group n (Plus true (Class p))) r) (g ++ suf) caps k = Some x.
Proof.
  intros N F S H. destruct g as [|c g]; [congruence|].
  inversion F as [|? ? Pc Fg]; subst.
  rewrite rmatch_Seq, rmatch_Group. unfold Plus.
  rewrite rmatch_Seq. cbn [app]. rewrite rmatch_Class_cons, Pc.
  rewrite rmatch_star_greedy.
  apply longest_first_run_end; [exact Fg|exact S|].
  replace (firstn (length (c :: g ++ suf) - length suf) (c :: g ++ suf))
    with (c :: g); [exact H|].
  change (c :: g ++ suf) with ((c :: g) ++ suf).
  rewrite length_app, Nat.add_sub. now rewrite firstn_exact.
Qed.

Lemma rmatch_star_ok (p : char -> bool) r (ws suf : str) caps k (x : A) :
  Forall (fun c => p c = true) ws ->
  stops p suf ->
  rmatch r suf caps k = Some x ->
  rmatch (Seq (Star true (Class p)) r) (ws ++ suf) caps k = Some x.
Proof.
  intros F S H. rewrite rmatch_Seq, rmatch_star_greedy.
  now apply longest_first_run_end.
Qed.

End GroupsForward.

Lemma finditer_fuel_enough (r : regex) (fuel fuel' : nat) (s : str) :
  (length s <= fuel)%nat -> (length s <= fuel')%nat ->
  finditer_fuel r fuel s = finditer_fuel r fuel' s.
Proof.
  revert fuel' s; induction fuel as [|fuel IH]; intros fuel' s L L'.
  - destruct s; [|simpl in L; lia]. destruct fuel'; reflexivity.
  - destruct s as [|c t]; [destruct fuel'; reflexivity|].
    destruct fuel' as [|fuel']; [simpl in L'; lia|].
    simpl in L, L'. cbn [finditer_fuel].
    destruct (match_at r (c :: t)) as [[rest caps]|].
    + f_equal. destruct (length rest <? length (c :: t)) eqn:E.
      * apply Nat.ltb_lt in E. simpl in E. apply IH; lia.
      * apply IH; lia.
    + apply IH; lia.
Qed.

Lemma Forall_neg_not_in (x : char) (s : str) :
  ~ In x s -> Forall (fun c => negb (char_eqb c x) = true) s.
Proof.
  intros N. apply Forall_forall. intros c I.
  destruct (char_eqb c x) eqn:E; [|reflexivity].
  unfold char_eqb in E. apply N.eqb_eq in E. subst. contradiction.
Qed.

Section TableRoundTrip.

Context {U : UnicodeData}.

Lemma entry_match_fail (c : char) (t : str) :
  c <> squote -> match_at entry_pattern (c :: t) = None.
Proof.
  intros N. unfold match_at, entry_pattern, Cat, Chr. cbn [fold_right].
  rewrite rmatch_Seq, rmatch_Class_cons.
  replace (char_eqb squote c) with false; [reflexivity|].
  symmetry. unfold char_eqb. apply N.eqb_neq. congruence.
Qed.

Lemma entry_match_ok (key description rest : str) :
  key <> [] -> ~ In squote key ->
  description <> [] -> ~ In squote description ->
  match_at entry_pattern
    (squote :: key ++ squote :: chr ":" :: chr " "
       :: squote :: description ++ squote :: rest)
  = Some (rest, [(2%nat, description); (1%nat, key)]).
Proof.
  intros Nk Qk Nd Qd.
  unfold match_at, entry_pattern, Cat, Chr, not_squote. cbn [fold_right].
  rewrite rmatch_Seq, rmatch_Class_cons.
  change (char_eqb squote squote) with true. cbv iota.
  apply rmatch_group_plus_ok;
    [exact Nk | now apply Forall_neg_not_in | reflexivity |].
  rewrite rmatch_Seq, rmatch_Class_cons.
  change (char_eqb squote squote) with true. cbv iota.
  rewrite rmatch_Seq, rmatch_Class_cons.
  change (char_eqb (chr ":") (chr ":")) with true. cbv iota.
  change (chr " " :: squote :: description ++ squote :: rest)
    with ([chr " "] ++ squote :: description ++ squote :: rest).
  apply rmatch_star_ok; [repeat constructor | reflexivity |].
  rewrite rmatch_Seq, rmatch_Class_cons.
  change (char_eqb squote squote) with true. cbv iota.
  apply rmatch_group_plus_ok;
    [exact Nd | now apply Forall_neg_not_in | reflexivity |].
  rewrite rmatch_Seq, rmatch_Class_cons.
  change (char_eqb squote squote) with true. cbv iota.
  reflexivity.
Qed.

Lemma finditer_no_quote (fuel : nat) (s : str) :
  ~ In squote s -> finditer_fuel entry_pattern fuel s = [].
Proof.
  revert s; induction fuel as [|fuel IH]; intros s N; [reflexivity|].
  destruct s as [|c t]; [reflexivity|]. cbn [finditer_fuel].
  rewrite entry_match_fail by (intros ->; apply N; now left).
  apply IH. intros I. apply N. now right.
Qed.

Lemma finditer_skip (sep s : str) (fuel : nat) :
  ~ In squote sep ->
  (length (sep ++ s) <= fuel)%nat ->
  finditer_fuel entry_pattern fuel (sep ++ s)
  = finditer_fuel entry_pattern fuel s.
Proof.
  revert fuel; induction sep as [|c sep IH]; intros fuel N L; [reflexivity|].
  destruct fuel as [|fuel]; [simpl in L; lia|].
  simpl in L. rewrite length_app in L.
  transitivity (finditer_fuel entry_pattern fuel s);
    [|apply finditer_fuel_enough; lia].
  cbn [app]. cbn [finditer_fuel].
  rewrite entry_match_fail by (intros ->; apply N; now left).
  apply IH; [intros I; apply N; now right|rewrite length_app; lia].
Qed.

Lemma finditer_render (items : list (str * (str * str))) (tail : str)
    (fuel : nat) :
  (forall sep key description,
      In (sep, (key, description)) items ->
      ~ In squote sep /\ key <> [] /\ ~ In squote key
      /\ description <> [] /\ ~ In squote description) ->
  ~ In squote tail ->
  (length (render_entries items tail) <= fuel)%nat ->
  finditer_fuel entry_pattern fuel (render_entries items tail)
  = map (fun it : str * (str * str) =>
           [(2%nat, snd (snd it)); (1%nat, fst (snd it))]) items.
Proof.
  intros W T. revert fuel.
  induction items as [|[sep [key description]] items IH]; intros fuel L.
  - now apply finditer_no_quote.
  - destruct (W sep key description (or_introl eq_refl))
      as (Qs & Nk & Qk & Nd & Qd).
    cbn [render_entries map fst snd] in *.
    rewrite finditer_skip by assumption.
    rewrite length_app in L. cbn [length] in L.
    rewrite length_app in L. cbn [length] in L.
    rewrite length_app in L. cbn [length] in L.
    destruct fuel as [|fuel]; [lia|].
    cbn [finditer_fuel]. rewrite entry_match_ok by assumption.
    replace (length (render_entries items tail)
             <? length (squote :: key ++ squote :: chr ":" :: chr " "
                          :: squote :: description
                          ++ squote :: render_entries items tail))
      with true.
    + f_equal. apply IH; [|lia].
      intros s k d I. apply W. now right.
    + symmetry. apply Nat.ltb_lt. cbn [length]. rewrite length_app.
      cbn [length]. rewrite length_app. cbn [length]. lia.
Qed.

(** The loader reads a well-formed table back: from the text of entries
    ['key': 'description'] whose keys and descriptions are not empty and
    hold no quote, with separators that hold no quote, [re.findall]
    returns the pairs in their order; when the keys differ, the lookup
    built from them gives every key its description. *)
Theorem loader_reads_rendered_table (items : list (str * (str * str)))
    (tail : str) :
  (forall sep key description,
      In (sep, (key, description)) items ->
      ~ In squote sep /\ key <> [] /\ ~ In squote key
      /\ description <> [] /\ ~ In squote description) ->
  ~ In squote tail ->
  re_findall2 entry_pattern (render_entries items tail) = map snd items
  /\ (NoDup (map (fun it : str * (str * str) => fst (snd it)) items) ->
      forall sep key description,
        In (sep, (key, description)) items ->
        dict_get
          (build_lookup
             (dict_of_pairs
                (re_findall2 entry_pattern (render_entries items tail))))
          key
        = Some description).
Proof.
  intros W T.
  assert (R : re_findall2 entry_pattern (render_entries items tail)
              = map snd items).
  { unfold re_findall2. rewrite finditer_render by (auto || lia).
    rewrite map_map. apply map_ext. intros [sep [k d]]. reflexivity. }
  split; [exact R|]. rewrite R. intros N sep key description I.
  destruct (W _ _ _ I) as (_ & _ & _ & Nd & _).
  destruct (@build_lookup_inv (dict_of_pairs (map snd items))
              (dict_of_pairs_NoDup _)) as [E _ _].
  apply E; [|exact Nd]. apply dict_get_In.
  apply in_split in I as (l1 & l2 & ->).
  rewrite map_app in *. cbn [map fst snd] in *.
  unfold dict_of_pairs. rewrite fold_left_app. cbn [fold_left fst snd].
  rewrite fold_set_get_other; [apply dict_get_set_same|].
  apply NoDup_remove_2 in N. intros I. apply N.
  apply in_or_app. right. rewrite map_map in I. exact I.
Qed.

End TableRoundTrip.

Lemma loader_reads_rendered_table_sample :
  re_findall2 (entry_pattern (U := ascii_only))
    (render_entries sample_items (pystr " "))
  = map snd sample_items
  /\ (NoDup (map (fun it : str * (str * str) => fst (snd it)) sample_items) ->
      forall sep key description,
        In (sep, (key, description)) sample_items ->
        dict_get
          (build_lookup
             (dict_of_pairs
                (re_findall2 (entry_pattern (U := ascii_only))
                   (render_entries sample_items (pystr " ")))))
          key
        = Some description).
Proof.
  apply (@loader_reads_rendered_table ascii_only sample_items (pystr " ")).
  - intros sep key description [H|[H|[]]]; inversion H; subst;
      repeat split; try discriminate;
      vm_compute; intuition discriminate.
  - vm_compute. intuition discriminate.
Defined.

(** ** The strings that slugify leaves alone *)

Lemma slug_tail_skip_alnum (pre suf : str) :
  Forall (fun c => is_slug_alnum c = true) pre ->
  slug_tail false (pre ++ suf) = slug_tail false suf.
Proof.
  induction 1 as [|c pre Pc F IH]; [reflexivity|].
  cbn [app]. now rewrite slug_tail_cons, Pc.
Qed.

Lemma at_end_inv (r : str) (caps : captures) (y : unit) :
  at_end r caps = Some y -> r = [].
Proof. unfold at_end. destruct r; [reflexivity|discriminate]. Qed.

(** The repetition [(-[a-z0-9]+)*] reaches the end of the text only over
    hyphens that are each followed by alphanumerics. *)
Lemma slug_groups_sound (fuel : nat) (r : str) (caps : captures) (y : unit) :
  star_loop true
    (fun s' caps' k' =>
       rmatch (Group 1 (Seq (Chr hyphen) (Plus true (Class is_slug_alnum))))
         s' caps' k')
    at_end fuel r caps = Some y ->
  slug_tail false r = true.
Proof.
  revert r caps y; induction fuel as [|fuel IH]; intros r caps y.
  - cbn [star_loop]. intros H. now rewrite (at_end_inv _ _ H).
  - cbn [star_loop].
    match goal with
    | |- match ?again with _ => _ end = _ -> _ =>
        destruct again as [x|] eqn:G
    end.
    + intros _. rewrite rmatch_Group in G. unfold Chr, Plus in G.
      apply rmatch_class_inv in G as (c & t & -> & Hc & G).
      apply rmatch_class_inv in G as (a & t' & -> & Ha & G).
      rewrite rmatch_star_greedy in G.
      apply longest_first_split in G as (pre & suf & -> & F & K).
      destruct (length suf <? length (c :: a :: pre ++ suf)); [|discriminate].
      apply IH in K.
      unfold char_eqb in Hc. apply N.eqb_eq in Hc. subst c.
      rewrite slug_tail_cons.
      change (is_slug_alnum hyphen) with false.
      change (is_hyphen hyphen) with true. cbv iota. cbn [negb andb].
      rewrite slug_tail_cons, Ha. now rewrite slug_tail_skip_alnum.
    + intros H. now rewrite (at_end_inv _ _ H).
Qed.

Lemma fullmatch_slug_ok (s : str) :
  re_fullmatch slug_regex s = true -> slug_ok s = true.
Proof.
  unfold re_fullmatch, slug_regex.
  destruct (rmatch _ s [] at_end) as [y|] eqn:G; [|discriminate].
  intros _. rewrite rmatch_Seq in G. unfold Plus at 1 in G.
  apply rmatch_class_inv in G as (c & t & -> & Hc & G).
  rewrite rmatch_star_greedy in G.
  apply longest_first_split in G as (pre & suf & -> & F & K).
  rewrite rmatch_Star in K. apply slug_groups_sound in K.
  cbn [slug_ok]. now rewrite Hc, slug_tail_skip_alnum.
Qed.

Section FixedPoints.

Context {U : UnicodeData}.

(** The strings that [slugify] returns unchanged are the empty string
    and the strings that [^[a-z0-9]+(-[a-z0-9]+)*$] matches, and no
    others: every slug of that shape is the slug of itself. *)
Theorem slugify_fixed_points (s : str) :
  slugify s = s <-> s = [] \/ re_fullmatch slug_regex s = true.
Proof.
  split.
  - intros H. destruct (slugify_shape s) as [E|E]; rewrite H in E.
    + now left.
    + right. now apply slug_ok_fullmatch.
  - intros [->|H]; [reflexivity|].
    now apply slugify_slug, fullmatch_slug_ok.
Qed.

End FixedPoints.

(** ** The calls that the scanner accepts *)

Lemma drop_while_app_stop (p : char -> bool) (w : str) (c : char) (t : str) :
  Forall (fun x => p x = true) w -> p c = false ->
  drop_while p (w ++ c :: t) = c :: t.
Proof.
  intros F N. induction F as [|x w Px F IH].
  - simpl. now rewrite N.
  - simpl. now rewrite Px.
Qed.

(** The first occurrence of a pair of different characters after a text
    that has none. *)
Lemma find_sub_pair_after (x y : char) (b rest : str) :
  x <> y ->
  find_sub [x; y] b = None ->
  find_sub [x; y] (b ++ x :: y :: rest) = Some (b, rest).
Proof.
  intros D. induction b as [|c b IH]; intros F.
  - apply find_sub_here. cbn [app strip_prefix]. unfold char_eqb.
    now rewrite !N.eqb_refl.
  - apply find_sub_none_inv in F as [P F].
    cbn [app find_sub]. rewrite (IH F).
    replace (strip_prefix [x; y] (c :: b ++ x :: y :: rest)) with (@None str);
      [reflexivity|].
    symmetry. cbn [strip_prefix] in *.
    destruct (char_eqb x c) eqn:E; [|reflexivity].
    destruct b as [|d b]; cbn [app].
    + replace (char_eqb y x) with false; [reflexivity|].
      symmetry. unfold char_eqb. apply N.eqb_neq. congruence.
    + destruct (char_eqb y d); [discriminate|reflexivity].
Qed.

Lemma find_sub_none_straddle (w pre head rest : str) :
  (length w <= length head + 1)%nat ->
  find_sub w (pre ++ head) = None ->
  forall i, (i < length pre)%nat ->
    strip_prefix w (skipn i (pre ++ head ++ rest)) = None.
Proof.
  intros L. induction pre as [|c pre IH]; intros F i Hi; [simpl in Hi; lia|].
  cbn [app] in F. apply find_sub_none_inv in F as [P F].
  destruct i as [|i].
  - cbn [skipn app].
    replace (c :: pre ++ head ++ rest) with ((c :: pre ++ head) ++ rest)
      by (cbn [app]; now rewrite <- app_assoc).
    rewrite strip_prefix_long, P; [reflexivity|].
    cbn [length]. rewrite length_app. lia.
  - cbn [skipn app]. apply IH; [exact F|]. simpl in Hi. lia.
Qed.

Section AcceptedCalls.

Context {U : UnicodeData}.

Lemma search_from_skip (r : regex) (pre s : str) (pos : nat) :
  (forall i, (i < length pre)%nat -> match_at r (skipn i (pre ++ s)) = None) ->
  search_from r pos (pre ++ s) = search_from r (pos + length pre) s.
Proof.
  revert pos; induction pre as [|c pre IH]; intros pos H.
  - cbn [app length]. now rewrite Nat.add_0_r.
  - cbn [app]. rewrite search_from_next by (apply (H 0%nat); simpl; lia).
    rewrite IH.
    + cbn [length]. f_equal. lia.
    + intros i Hi. apply (H (S i)). simpl. lia.
Qed.

(** The search of the scanner in a text that holds a call, no [include(]
    standing before it and the block holding no [})]: the match is the
    call, and its group is the block. *)
Lemma include_search_call (pre ws1 ws2 block rest : str) (q1 q2 : char) :
  is_quote q1 = true ->
  is_quote q2 = true ->
  Forall (fun c => is_space c = true) ws1 ->
  Forall (fun c => is_space c = true) ws2 ->
  str_contains (pystr "})") block = false ->
  str_contains (pystr "include(") (pre ++ pystr "include") = false ->
  exists m,
    re_search include_pattern
      (pre ++ pystr "include(" ++ q1 :: pystr "layout" ++ q2 :: ws1
           ++ chr "," :: ws2 ++ chr "{" :: block ++ pystr "})" ++ rest)
    = Some m
    /\ m_group m 1 = block.
Proof.
  intros Q1 Q2 W1 W2 B P.
  set (call := pystr "include(" ++ q1 :: pystr "layout" ++ q2 :: ws1
                 ++ chr "," :: ws2 ++ chr "{" :: block ++ pystr "})" ++ rest).
  assert (M : match_at include_pattern call = Some (rest, [(1%nat, block)])).
  { rewrite include_match_at. unfold include_at, include_head, and_then, call.
    rewrite strip_prefix_same. cbn [expect]. rewrite Q1.
    rewrite strip_prefix_same. cbn [expect]. rewrite Q2.
    unfold skip_then.
    rewrite drop_while_app_stop by (exact W1 || reflexivity).
    cbn [expect]. change (char_eqb (chr ",") (chr ",")) with true. cbv iota.
    rewrite drop_while_app_stop by (exact W2 || reflexivity).
    cbn [expect]. change (char_eqb (chr "{") (chr "{")) with true. cbv iota.
    change (pystr "})" ++ rest) with (chr "}" :: chr ")" :: rest).
    change (pystr "})") with [chr "}"; chr ")"].
    rewrite find_sub_pair_after; [reflexivity|discriminate|].
    unfold str_contains in B.
    change (pystr "})") with [chr "}"; chr ")"] in B.
    destruct (find_sub [chr "}"; chr ")"] block); [discriminate|reflexivity]. }
  assert (N : forall i, (i < length pre)%nat ->
                match_at include_pattern (skipn i (pre ++ call)) = None).
  { intros i Hi. rewrite include_match_at.
    unfold include_at, include_head, and_then.
    unfold call.
    change (pystr "include(" ++ ?x) with (pystr "include" ++ chr "(" :: x).
    rewrite (@find_sub_none_straddle (pystr "include(") pre (pystr "include"));
      [reflexivity|cbn; lia| |exact Hi].
    unfold str_contains in P.
    destruct (find_sub (pystr "include(") (pre ++ pystr "include"));
      [discriminate|reflexivity]. }
  unfold re_search. fold call.
  rewrite (search_from_skip _ _ _ _ N), (search_from_here _ _ _ M).
  eexists. split; reflexivity.
Qed.

(** The scanner accepts the call [include('layout', { ... })] written
    with either quote character on each side of [layout] (the two need
    not agree) and any white space around the comma: when no [include(]
    stands before the call and the block holds no [})], the record of
    the file is computed from that block. *)
Theorem scan_file_accepts_call
    (path filename pre ws1 ws2 block rest : str) (q1 q2 : char) :
  is_quote q1 = true ->
  is_quote q2 = true ->
  Forall (fun c => is_space c = true) ws1 ->
  Forall (fun c => is_space c = true) ws2 ->
  str_contains (pystr "})") block = false ->
  str_contains (pystr "include(") (pre ++ pystr "include") = false ->
  scan_file path filename
    (pre ++ pystr "include(" ++ q1 :: pystr "layout" ++ q2 :: ws1
         ++ chr "," :: ws2 ++ chr "{" :: block ++ pystr "})" ++ rest)
  = [(path,
      slugify (slug_candidate block filename),
      str_contains (pystr "pageDescription") block)].
Proof.
  intros Q1 Q2 W1 W2 B P.
  destruct (@include_search_call pre ws1 ws2 block rest q1 q2 Q1 Q2 W1 W2 B P)
    as (m & St & G).
  unfold scan_file. rewrite St, G. reflexivity.
Qed.

End AcceptedCalls.

Lemma scan_file_accepts_call_sample :
  scan_file (U := ascii_only) (pystr "/site/about-us.html")
    (pystr "about-us.html")
    (pystr "<?!= " ++ pystr "include(" ++ squote :: pystr "layout"
       ++ dquote :: [] ++ chr "," :: pystr " " ++ chr "{"
       :: pystr " pageSlug: 'about-us' " ++ pystr "})" ++ pystr " ?>")
  = [(pystr "/site/about-us.html",
      slugify (U := ascii_only)
        (slug_candidate (U := ascii_only)
           (pystr " pageSlug: 'about-us' ") (pystr "about-us.html")),
      str_contains (pystr "pageDescription") (pystr " pageSlug: 'about-us' "))].
Proof.
  apply (@scan_file_accepts_call ascii_only).
  - reflexivity.
  - reflexivity.
  - constructor.
  - repeat constructor.
  - vm_compute. reflexivity.
  - vm_compute. reflexivity.
Defined.

(** ** The case of the letters *)

Lemma drop_while_map (p : char -> bool) (f : char -> char) (s : str) :
  (forall c, p (f c) = p c) ->
  drop_while p (map f s) = map f (drop_while p s).
Proof.
  intros E. induction s as [|c t IH]; [reflexivity|].
  cbn [map drop_while]. rewrite E. destruct (p c); [exact IH|reflexivity].
Qed.

Lemma strip_by_map (p : char -> bool) (f : char -> char) (s : str) :
  (forall c, p (f c) = p c) ->
  strip_by p (map f s) = map f (strip_by p s).
Proof.
  intros E. unfold strip_by.
  rewrite drop_while_map by exact E.
  rewrite <- map_rev, drop_while_map by exact E.
  now rewrite map_rev.
Qed.

Lemma ascii_lower_ascii (c : char) : is_ascii (ascii_lower c) = is_ascii c.
Proof.
  unfold ascii_lower. destruct (is_ascii_upper c) eqn:E; [|reflexivity].
  assert (A : is_ascii c = true) by (char_arith; apply N.ltb_lt; lia).
  rewrite A. char_arith. apply N.ltb_lt. lia.
Qed.

Lemma ascii_lower_space (c : char) :
  ascii_isspace (ascii_lower c) = ascii_isspace c.
Proof.
  unfold ascii_lower. destruct (is_ascii_upper c) eqn:E; [|reflexivity].
  assert (A : ascii_isspace c = false).
  { destruct (ascii_isspace c) eqn:S; [exfalso|reflexivity].
    char_arith; lia. }
  rewrite A. destruct (ascii_isspace (c + 32)) eqn:S; [exfalso|reflexivity].
  char_arith; lia.
Qed.

Lemma ascii_lower_idem (c : char) : ascii_lower (ascii_lower c) = ascii_lower c.
Proof.
  unfold ascii_lower at 1. now rewrite ascii_lower_not_upper.
Qed.

Section LetterCase.

Context {U : UnicodeData}.

Lemma py_lower_strip_ascii (s : str) :
  forallb is_ascii s = true ->
  py_lower (py_strip s) = py_strip (map ascii_lower s).
Proof.
  intros A. unfold py_strip. rewrite strip_by_map.
  - unfold py_lower.
    assert (A' : forallb is_ascii (strip_by is_space s) = true).
    { apply forallb_forall. intros c I.
      rewrite forallb_forall in A. apply A.
      unfold strip_by in I. apply in_rev in I.
      assert (D : forall p (l : str) x, In x (drop_while p l) -> In x l).
      { intros p l x. induction l as [|y l IH]; [auto|].
        simpl. destruct (p y); [intros H; right; auto|auto]. }
      apply D in I. apply in_rev in I. now apply D in I. }
    now rewrite A'.
  - intros c. unfold is_space.
    rewrite ascii_lower_ascii. destruct (is_ascii c) eqn:E.
    + apply ascii_lower_space.
    + unfold ascii_lower.
      assert (N : is_ascii_upper c = false).
      { destruct (is_ascii_upper c) eqn:Up; [exfalso|reflexivity].
        char_arith; lia. }
      now rewrite N.
Qed.

(** Two ASCII texts that differ only in the case of their letters have
    the same slug. *)
Theorem slugify_ignores_ascii_case (a b : str) :
  forallb is_ascii a = true ->
  forallb is_ascii b = true ->
  map ascii_lower a = map ascii_lower b ->
  slugify a = slugify b.
Proof.
  intros Aa Ab E. unfold slugify.
  now rewrite (py_lower_strip_ascii _ Aa), (py_lower_strip_ascii _ Ab), E.
Qed.

End LetterCase.

Lemma slugify_ignores_ascii_case_sample :
  slugify (U := ascii_only) (pystr "About-Us")
  = slugify (U := ascii_only) (pystr "about-US").
Proof.
  apply (@slugify_ignores_ascii_case ascii_only);
    vm_compute; reflexivity.
Defined.

(** ** A page that names its slug *)

Lemma find_sub_missing_char (x : char) (pat s : str) :
  In x pat -> ~ In x s -> find_sub pat s = None.
Proof.
  intros I N. destruct (find_sub pat s) as [[b a]|] eqn:F; [|reflexivity].
  apply find_sub_app in F. subst s. exfalso. apply N.
  apply in_or_app. right. apply in_or_app. now left.
Qed.

Lemma finditer_fuel_nil (r : regex) (fuel : nat) : finditer_fuel r fuel [] = [].
Proof. destruct fuel; reflexivity. Qed.

Section SingleProperty.

Context {U : UnicodeData}.

Lemma prop_match_fail (c : char) (t : str) :
  is_word c = false -> match_at prop_pattern (c :: t) = None.
Proof.
  intros N. unfold match_at, prop_pattern, Cat. cbn [fold_right].
  rewrite rmatch_Seq, rmatch_Group. unfold Plus.
  rewrite rmatch_Seq, rmatch_Class_cons, N. reflexivity.
Qed.

Lemma prop_match_ok (name ws value : str) :
  name <> [] -> Forall (fun c => is_word c = true) name ->
  Forall (fun c => is_space c = true) ws ->
  value <> [] -> stops is_space value ->
  ~ In (chr ",") value -> ~ In 10%N value ->
  match_at prop_pattern (name ++ chr ":" :: ws ++ value)
  = Some ([], [(2%nat, value); (1%nat, name)]).
Proof.
  intros Nn Fn Fw Nv Sv Cv Lv.
  unfold match_at, prop_pattern, Cat, Chr. cbn [fold_right].
  apply rmatch_group_plus_ok; [exact Nn|exact Fn|reflexivity|].
  change (chr ":" :: ws ++ value) with ([] ++ chr ":" :: ws ++ value).
  apply rmatch_star_ok; [constructor|reflexivity|].
  rewrite rmatch_Seq, rmatch_Class_cons.
  change (char_eqb (chr ":") (chr ":")) with true. cbv iota.
  apply rmatch_star_ok; [exact Fw|exact Sv|].
  rewrite <- (app_nil_r value) at 1.
  apply rmatch_group_plus_ok; [exact Nv| |exact I|].
  - apply Forall_forall. intros c Hc.
    destruct (char_eqb c (chr ",")) eqn:E1.
    { apply N.eqb_eq in E1. subst. contradiction. }
    destruct (char_eqb c 10%N) eqn:E2.
    { apply N.eqb_eq in E2. subst. contradiction. }
    reflexivity.
  - rewrite rmatch_Eps. reflexivity.
Qed.


Lemma finditer_prop_skip (ws0 s : str) (fuel : nat) :
  Forall (fun c => is_word c = false) ws0 ->
  (length (ws0 ++ s) <= fuel)%nat ->
  finditer_fuel prop_pattern fuel (ws0 ++ s)
  = finditer_fuel prop_pattern fuel s.
Proof.
  intros F. revert fuel. induction F as [|c ws0 Hc F IH]; intros fuel L;
    [reflexivity|].
  destruct fuel as [|fuel]; [simpl in L; lia|].
  simpl in L. rewrite length_app in L.
  transitivity (finditer_fuel prop_pattern fuel s);
    [|apply finditer_fuel_enough; lia].
  cbn [app]. cbn [finditer_fuel]. rewrite prop_match_fail by exact Hc.
  apply IH. rewrite length_app. lia.
Qed.

Lemma block_props_single (ws0 name ws value : str) :
  Forall (fun c => is_word c = false) ws0 ->
  name <> [] -> Forall (fun c => is_word c = true) name ->
  Forall (fun c => is_space c = true) ws ->
  value <> [] -> stops is_space value ->
  ~ In (chr ",") value -> ~ In 10%N value ->
  block_props (ws0 ++ name ++ chr ":" :: ws ++ value) = [(name, value)].
Proof.
  intros F0 Nn Fn Fw Nv Sv Cv Lv.
  unfold block_props, re_findall2.
  rewrite finditer_prop_skip by (exact F0 || lia).
  destruct name as [|c name]; [congruence|].
  rewrite (@finditer_fuel_enough prop_pattern _
             (S (length ((c :: name) ++ chr ":" :: ws ++ value))))
    by (rewrite ?length_app; cbn [length]; rewrite ?length_app; lia).
  cbn [app]. cbn [finditer_fuel].
  change (c :: name ++ chr ":" :: ws ++ value)
    with ((c :: name) ++ chr ":" :: ws ++ value).
  rewrite prop_match_ok by assumption.
  cbn [length Nat.ltb Nat.leb]. rewrite finditer_fuel_nil. reflexivity.
Qed.

End SingleProperty.

Lemma slug_char_range (c : char) :
  is_slug_alnum c = true \/ c = hyphen ->
  (97 <= c <= 122 \/ 48 <= c <= 57 \/ c = 45)%N.
Proof.
  intros [H| ->]; [|now right; right].
  char_arith; [left|right; left]; lia.
Qed.

Lemma slug_lacks (x : char) (k : str) :
  Forall (fun c => is_slug_alnum c = true \/ c = hyphen) k ->
  (x < 45 \/ 45 < x < 48 \/ 57 < x < 97 \/ 122 < x)%N ->
  ~ In x k.
Proof.
  intros F R I. rewrite Forall_forall in F.
  apply F, slug_char_range in I. lia.
Qed.

Lemma drop_end_snoc (p : char -> bool) (s : str) (c : char) :
  p c = true -> drop_end p (s ++ [c]) = drop_end p s.
Proof.
  intros Pc. rewrite <- !rev_drop_while_rev, rev_app_distr.
  cbn [rev app drop_while]. now rewrite Pc.
Qed.

Ltac outside_slug :=
  first [ left; reflexivity
        | right; left; split; reflexivity
        | right; right; left; split; reflexivity
        | right; right; right; reflexivity ].

Section QuotedSlug.

Context {U : UnicodeData}.

Lemma clean_value_quoted (k : str) :
  slug_ok k = true ->
  clean_value (squote :: k ++ [squote; chr " "]) = k.
Proof.
  intros E. pose proof (slug_tail_chars _ _ (slug_ok_tail _ E)) as F.
  unfold clean_value, str_contains.
  rewrite (@find_sub_missing_char (chr "|")).
  - unfold quote_or_paren. rewrite re_sub_class.
    cbn [filter]. change (is_quote_or_paren squote) with true. cbn [negb].
    rewrite filter_app.
    replace (filter (fun c => negb (is_quote_or_paren c)) k) with k.
    + cbn [filter]. change (is_quote_or_paren squote) with true.
      change (is_quote_or_paren (chr " ")) with false. cbn [negb].
      unfold py_strip. rewrite strip_by_ends.
      pose proof (slug_not_space F) as NS.
      destruct k as [|c t]; [discriminate|].
      inversion NS as [|? ? Hc Ht]; subst.
      cbn [app drop_while]. rewrite Hc.
      change (c :: t ++ [chr " "]) with ((c :: t) ++ [chr " "]).
      rewrite drop_end_snoc by reflexivity.
      now apply drop_end_none.
    + symmetry. apply forallb_filter_id. apply forallb_forall. intros c I.
      rewrite Forall_forall in F. apply F, slug_char_range in I.
      apply negb_true_iff. unfold is_quote_or_paren, squote, dquote, char_eqb.
      repeat (apply orb_false_iff; split); apply N.eqb_neq; cbv; lia.
  - now left.
  - intros I. cbn [In] in I. rewrite in_app_iff in I. cbn [In] in I.
    destruct I as [I|[I|[I|[I|[]]]]]; try discriminate I.
    revert I. apply slug_lacks; [exact F|outside_slug].
Qed.


Lemma quoted_block_lacks (x : char) (name k : str) :
  In name slug_keys ->
  Forall (fun c => is_slug_alnum c = true \/ c = hyphen) k ->
  (x < 32 \/ 67 < x < 80 \/ 122 < x)%N ->
  ~ In x (chr " " :: name ++ pystr ": '" ++ k ++ pystr "' ").
Proof.
  intros Hn F R I.
  assert (K : ~ In x k).
  { apply slug_lacks; [exact F|lia]. }
  assert (E : forall y : char, (32 <= y <= 67 \/ 80 <= y <= 122)%N -> x <> y)
    by (intros y Ry; lia).
  destruct Hn as [<-|[<-|[]]];
    cbn in I;
    repeat (destruct I as [I|I];
            [symmetry in I; revert I; apply E; vm_compute;
             intuition congruence|]);
    apply in_app_or in I as [I|I]; try contradiction; cbn in I;
    repeat (destruct I as [I|I];
            [symmetry in I; revert I; apply E; vm_compute;
             intuition congruence|]);
    exact I.
Qed.


Lemma slug_candidate_quoted (name k filename : str) :
  In name slug_keys ->
  slug_ok k = true ->
  slug_candidate (chr " " :: name ++ pystr ": '" ++ k ++ pystr "' ") filename
  = k.
Proof.
  intros Hn E. pose proof (slug_tail_chars _ _ (slug_ok_tail _ E)) as F.
  assert (Nk : is_empty k = false) by (destruct k; [discriminate|reflexivity]).
  assert (P : block_props (chr " " :: name ++ pystr ": '" ++ k ++ pystr "' ")
              = [(name, squote :: k ++ [squote; chr " "])]).
  { apply (@block_props_single U [chr " "] name [chr " "]
             (squote :: k ++ [squote; chr " "])).
    - repeat constructor.
    - destruct Hn as [<-|[<-|[]]]; discriminate.
    - destruct Hn as [<-|[<-|[]]]; repeat constructor.
    - repeat constructor.
    - discriminate.
    - reflexivity.
    - intros [I|I]; [discriminate I|]. apply in_app_or in I as [I|I].
      + revert I. apply slug_lacks; [exact F|outside_slug].
      + cbn in I. intuition discriminate.
    - intros [I|I]; [discriminate I|]. apply in_app_or in I as [I|I].
      + revert I. apply slug_lacks; [exact F|outside_slug].
      + cbn in I. intuition discriminate. }
  unfold slug_candidate. rewrite P.
  assert (C : slug_from_props [(name, squote :: k ++ [squote; chr " "])]
                slug_keys = k).
  { destruct Hn as [<-|[<-|[]]]; unfold slug_keys; cbn [slug_from_props].
    - cbn [dict_get]. rewrite str_eqb_refl, clean_value_quoted by exact E.
      now rewrite Nk.
    - cbn [dict_get].
      change (str_eqb (pystr "currentPage") (pystr "pageSlug")) with false.
      cbv iota. rewrite str_eqb_refl, clean_value_quoted by exact E.
      now rewrite Nk. }
  rewrite C. now rewrite Nk.
Qed.

(** A page that calls the layout with [pageSlug: 'k'] or
    [currentPage: 'k'] alone, [k] being a slug, is recorded under [k]
    without an inline description, whatever the name of the file, what
    stands before the call (no [include(] there) and what follows it; it
    is covered exactly when [k] is a key of the lookup. *)
Theorem quoted_slug_page (path filename pre rest name k : str)
    (lookup : dict str) :
  In name slug_keys ->
  slug_ok k = true ->
  str_contains (pystr "include(") (pre ++ pystr "include") = false ->
  scan_file path filename
    (pre ++ pystr "include('layout', { " ++ name ++ pystr ": '" ++ k
         ++ pystr "' })" ++ rest)
  = [(path, k, false)]
  /\ main_loop lookup
       (scan_file path filename
          (pre ++ pystr "include('layout', { " ++ name ++ pystr ": '" ++ k
               ++ pystr "' })" ++ rest))
     = if dict_mem k lookup then ([], [(path, k)]) else ([(path, k)], []).
Proof.
  intros Hn E P. pose proof (slug_tail_chars _ _ (slug_ok_tail _ E)) as F.
  set (block := chr " " :: name ++ pystr ": '" ++ k ++ pystr "' ").
  assert (R : scan_file path filename
                (pre ++ pystr "include('layout', { " ++ name ++ pystr ": '"
                     ++ k ++ pystr "' })" ++ rest)
              = [(path, k, false)]).
  { replace (pystr "include('layout', { " ++ name ++ pystr ": '" ++ k
               ++ pystr "' })" ++ rest)
      with (pystr "include(" ++ squote :: pystr "layout" ++ squote :: []
              ++ chr "," :: [chr " "] ++ chr "{" :: block ++ pystr "})"
              ++ rest)
      by (unfold block; cbn; rewrite <- app_assoc; cbn;
          now rewrite <- app_assoc).
    destruct (@include_search_call U pre [] [chr " "] block rest squote squote)
      as (m & St & G); try reflexivity; try (repeat constructor).
    - unfold str_contains.
      rewrite (@find_sub_missing_char (chr "}")); [reflexivity|cbn; auto|].
      apply quoted_block_lacks; [exact Hn|exact F|right; right; reflexivity].
    - exact P.
    - unfold scan_file. rewrite St, G. unfold block at 1.
      rewrite slug_candidate_quoted, slugify_slug by assumption.
      unfold str_contains.
      rewrite (@find_sub_missing_char (chr "D")); [reflexivity|cbn; auto 20|].
      apply quoted_block_lacks;
        [exact Hn|exact F|right; left; split; reflexivity]. }
  split; [exact R|]. rewrite R.
  unfold main_loop. cbn [fold_left main_step].
  destruct (dict_mem k lookup); reflexivity.
Qed.

End QuotedSlug.

Lemma quoted_slug_page_sample :
  scan_file (U := ascii_only) (pystr "/site/contact.html")
    (pystr "contact.html")
    (pystr "<?!= " ++ pystr "include('layout', { " ++ pystr "currentPage"
       ++ pystr ": '" ++ pystr "contact" ++ pystr "' })" ++ pystr " ?>")
  = [(pystr "/site/contact.html", pystr "contact", false)]
  /\ main_loop sample_lookup
       (scan_file (U := ascii_only) (pystr "/site/contact.html")
          (pystr "contact.html")
          (pystr "<?!= " ++ pystr "include('layout', { "
             ++ pystr "currentPage" ++ pystr ": '" ++ pystr "contact"
             ++ pystr "' })" ++ pystr " ?>"))
     = if dict_mem (pystr "contact") sample_lookup
       then ([], [(pystr "/site/contact.html", pystr "contact")])
       else ([(pystr "/site/contact.html", pystr "contact")], []).
Proof.
  apply (@quoted_slug_page ascii_only).
  - right. left. reflexivity.
  - reflexivity.
  - reflexivity.
Defined.
